(** * Answer ranking engine of the Fortytwo bot (src/bot.ts)

    A shallow embedding of [pairwiseJudge], [directRank] and of the
    validation that [processPendingChallenges] runs before it submits a
    vote, followed by the properties of the ranking round.

    Conventions.
    - Identifiers are JavaScript strings, modelled by [string].
    - The LLM endpoint is the environment: an [oracle] gives the outcome of
      the k-th call made during a round, so that a statement quantified over
      oracles covers every behaviour of the endpoint.
    - A [try { ... } catch] block is an [option] computation: [None] is a
      thrown exception, handled where the source handles it.
    - The win tally is a plain JavaScript object; its own-property order
      and the inherited [__proto__] accessor are modelled explicitly.

    The development also covers the HTTP layer of the bot ([apiRequest],
    [doLogin], [doRefreshToken], [ensureAuth]) and the registration script
    ([parseChoice], [evaluateWithOllama], the configuration files and the
    retry loop of [main]), each against its own environment of server
    replies. *)

From Stdlib Require Import List String Ascii ZArith NArith Bool Arith Lia.
From Stdlib Require Import Permutation Sorted.
From Stdlib Require DecimalString.
Import ListNotations.
Open Scope string_scope.
Open Scope list_scope.

Set Implicit Arguments.
Set Warnings "-register-all".

(** ** Data model *)

Record AnswerEntry := mkAnswer { id : string; content : string }.

(** The value returned by [pairwiseJudge] and [directRank]. *)
Record Judgement := mkJudgement {
  rankings : list string;
  goodAnswers : list string
}.

(** Values produced by [JSON.parse]. The ranking code never computes with a
    number, it only observes whether it is falsy, so the payload is an
    integer. *)
Inductive json : Type :=
| JNull
| JBool (b : bool)
| JNumber (z : Z)
| JString (s : string)
| JArray (items : list json)
| JObject (fields : list (string * json)).

(** Outcome of one [askLLM] call followed by [JSON.parse] of its text. *)
Inductive reply : Type :=
| Rejected                         (* askLLM throws *)
| Responded (parsed : option json) (* text received; None: JSON.parse throws *).

(** The reply of the endpoint to the k-th call of a round. *)
Definition oracle := nat -> reply.

(** ** JavaScript primitives used by the engine *)

Module JS.

(** ToBoolean. *)
Definition truthy (v : json) : bool :=
  match v with
  | JNull => false
  | JBool b => b
  | JNumber z => negb (z =? 0)%Z
  | JString s => negb (s =? "")
  | JArray _ | JObject _ => true
  end.

Fixpoint lookup (k : string) (fields : list (string * json)) : option json :=
  match fields with
  | [] => None
  | (k', v) :: rest => if k' =? k then Some v else lookup k rest
  end.

(** [v.k] for a key [k] that no built-in prototype defines ([winner],
    [answer_rankings], [good_answers]): a TypeError on [null], the own
    property of an object, [undefined] (inner [None]) otherwise. *)
Definition member (v : json) (k : string) : option (option json) :=
  match v with
  | JNull => None
  | JObject fields => Some (lookup k fields)
  | _ => Some None
  end.

(** [x || []]. *)
Definition or_empty (x : option json) : json :=
  match x with
  | Some v => if truthy v then v else JArray []
  | None => JArray []
  end.

Fixpoint chars (s : string) : list json :=
  match s with
  | EmptyString => []
  | String c rest => JString (String c EmptyString) :: chars rest
  end.

(** The sequence visited by [for (const x of v)]: arrays and strings are
    iterable, anything else raises a TypeError. *)
Definition iterate (v : json) : option (list json) :=
  match v with
  | JArray items => Some items
  | JString s => Some (chars s)
  | _ => None
  end.

(** The receiver of [v.filter(...)]: only arrays have the method. *)
Definition as_array (v : json) : option (list json) :=
  match v with
  | JArray items => Some items
  | _ => None
  end.

(** [arr.includes(x)] on an array of strings. *)
Definition includes (arr : list string) (x : string) : bool :=
  existsb (String.eqb x) arr.

(** [new Set(xs)]: insertion order, later duplicates ignored. *)
Definition Set_add (s : list string) (x : string) : list string :=
  if includes s x then s else s ++ [x].

Definition Set_of (xs : list string) : list string :=
  fold_left Set_add xs [].

(** [set.has(v)] for a set of strings and an arbitrary JSON value. *)
Definition Set_has (s : list string) (v : json) : bool :=
  match v with
  | JString x => includes s x
  | _ => false
  end.

(** [Math.max(1, Math.ceil(n / 2))]. *)
Definition ceil_half (n : nat) : nat := (n + 1) / 2.
Definition good_count (n : nat) : nat := Nat.max 1 (ceil_half n).

(** *** Plain objects used as string-keyed tallies *)

(** Own properties in creation order. *)
Definition object := list (string * Z).

Definition proto_key : string := "__proto__".

Definition has_own (o : object) (k : string) : bool :=
  existsb (fun e => fst e =? k) o.

Fixpoint get_own (o : object) (k : string) : option Z :=
  match o with
  | [] => None
  | (k', v) :: rest => if k' =? k then Some v else get_own rest k
  end.

Fixpoint replace_own (o : object) (k : string) (v : Z) : object :=
  match o with
  | [] => []
  | (k', v') :: rest =>
      if k' =? k then (k', v) :: rest else (k', v') :: replace_own rest k v
  end.

(** [o[k] = v] with [v] a number, on an object created by [{}]. The key
    [__proto__] reaches the accessor inherited from [Object.prototype],
    whose setter ignores a value that is neither an object nor [null]:
    no own property is created. *)
Definition assign (o : object) (k : string) (v : Z) : object :=
  if k =? proto_key then o
  else if has_own o k then replace_own o k v
  else o ++ [(k, v)].

(** [o[k]++]. For [__proto__] the read yields [Object.prototype], the
    incremented value is NaN and the setter ignores it. The tally is
    initialised for every other identifier before the first increment,
    so the last branch (a missing key, which JavaScript would turn into
    an own NaN property) is never taken by [pairwiseJudge]. *)
Definition increment (o : object) (k : string) : object :=
  if k =? proto_key then o
  else match get_own o k with
       | Some v => assign o k (v + 1)%Z
       | None => o
       end.

Definition digit (c : ascii) : option N :=
  let n := N_of_ascii c in
  if ((48 <=? n) && (n <=? 57))%N then Some (n - 48)%N else None.

Fixpoint decimal (s : string) (acc : N) : option N :=
  match s with
  | EmptyString => Some acc
  | String c rest =>
      match digit c with
      | Some d => decimal rest (10 * acc + d)%N
      | None => None
      end
  end.

(** Array index: the canonical decimal form of an integer below 2^32 - 1. *)
Definition array_index (k : string) : option N :=
  match k with
  | EmptyString => None
  | String c rest =>
      if ((c =? "0")%char && negb (rest =? "")) then None
      else match decimal k 0 with
           | Some n => if (n <? 2 ^ 32 - 1)%N then Some n else None
           | None => None
           end
  end.

Definition is_index (k : string) : bool :=
  match array_index k with Some _ => true | None => false end.

Definition index_of (k : string) : N :=
  match array_index k with Some n => n | None => 0%N end.

Fixpoint insert_by_index (e : string * Z) (l : list (string * Z)) :=
  match l with
  | [] => [e]
  | e' :: rest =>
      if (index_of (fst e) <=? index_of (fst e'))%N then e :: e' :: rest
      else e' :: insert_by_index e rest
  end.

(** [Object.entries(o)]: array-index keys in ascending numeric order,
    then the other keys in creation order. *)
Definition entries (o : object) : list (string * Z) :=
  fold_right insert_by_index [] (filter (fun e => is_index (fst e)) o)
  ++ filter (fun e => negb (is_index (fst e))) o.

(** [arr.sort(cmp)]: the sort is stable; [cmp x y > 0] puts [y] first. *)
Section Sort.
Variable A : Type.
Variable cmp : A -> A -> Z.

Fixpoint sort_insert (x : A) (l : list A) : list A :=
  match l with
  | [] => [x]
  | y :: rest =>
      if (cmp x y >? 0)%Z then y :: sort_insert x rest else x :: y :: rest
  end.

Definition sort (l : list A) : list A := fold_right sort_insert [] l.
End Sort.

End JS.

(** ** directRank (bot.ts, lines 442-496) *)

(** Body of the first loop: keep a known identifier not yet ranked. *)
Definition rank_step (allIds : list string) (finalRankings : list string) (v : json)
  : list string :=
  match v with
  | JString s =>
      if JS.Set_has allIds v && negb (JS.includes finalRankings s)
      then finalRankings ++ [s] else finalRankings
  | _ => finalRankings
  end.

(** Body of the second loop: append a known identifier still missing. *)
Definition complete_step (finalRankings : list string) (s : string) : list string :=
  if negb (JS.includes finalRankings s) then finalRankings ++ [s] else finalRankings.

(** [goodIds.filter(id => allIds.has(id))]; the survivors are strings. *)
Fixpoint filter_known (allIds : list string) (goodIds : list json) : list string :=
  match goodIds with
  | [] => []
  | JString s :: rest =>
      if JS.Set_has allIds (JString s) then s :: filter_known allIds rest
      else filter_known allIds rest
  | _ :: rest => filter_known allIds rest
  end.

Definition ids_of (answers : list AnswerEntry) : list string := map id answers.

(** The [try] block, after the oracle has answered. [finalRankings[0]]
    exists as soon as [answers] is non-empty, and [pairwiseJudge] calls
    [directRank] with two or three answers only. *)
Definition directRank_try (answers : list AnswerEntry) (r : reply) : option Judgement :=
  match r with
  | Rejected => None
  | Responded None => None
  | Responded (Some parsed) =>
      let allIds := JS.Set_of (ids_of answers) in
      match JS.member parsed "answer_rankings", JS.member parsed "good_answers" with
      | Some ranked, Some good =>
          let rankedIds := JS.or_empty ranked in
          let goodIds := JS.or_empty good in
          match JS.iterate rankedIds with
          | None => None
          | Some ranked_items =>
              let finalRankings :=
                fold_left complete_step allIds
                          (fold_left (rank_step allIds) ranked_items []) in
              match JS.as_array goodIds with
              | None => None
              | Some good_items =>
                  let validGood := filter_known allIds good_items in
                  let finalGood :=
                    if (0 <? List.length validGood)%nat then validGood
                    else firstn 1 finalRankings in
                  Some (mkJudgement finalRankings finalGood)
              end
          end
      | _, _ => None
      end
  end.

Definition fallback (answers : list AnswerEntry) : Judgement :=
  mkJudgement (ids_of answers) (ids_of answers).

(** State of a round: what is returned so far and how many oracle calls
    were made. *)
Definition directRank (answers : list AnswerEntry) (orc : oracle) (calls : nat)
  : Judgement * nat :=
  match directRank_try answers (orc calls) with
  | Some j => (j, S calls)
  | None => (fallback answers, S calls)
  end.

(** ** pairwiseJudge (bot.ts, lines 379-440) *)

(** The comparison schedule built by the first [for] loop. *)
Definition schedule (n : nat) : list (nat * nat) :=
  flat_map (fun i => [(i, (i + 1) mod n); (i, (i + 2) mod n)]) (seq 0 n).

Record Round := mkRound { winCounts : JS.object; calls : nat }.

(** [parsed.winner] compared with "A" and "B". *)
Inductive verdict := WinA | WinB | NoWinner.

Definition verdict_of (r : reply) : verdict :=
  match r with
  | Rejected => NoWinner
  | Responded None => NoWinner
  | Responded (Some parsed) =>
      match JS.member parsed "winner" with
      | Some (Some (JString w)) =>
          if w =? "A" then WinA else if w =? "B" then WinB else NoWinner
      | _ => NoWinner
      end
  end.

(** One iteration of the comparison loop. An exception raised inside the
    [try] block leaves the tally as it is. *)
Definition compare_step (answers : list AnswerEntry) (orc : oracle)
           (st : Round) (p : nat * nat) : Round :=
  let (iA, iB) := p in
  if (iA =? iB)%nat then st
  else
    match nth_error answers iA, nth_error answers iB with
    | Some a, Some b =>
        let w := winCounts st in
        let w' := match verdict_of (orc (calls st)) with
                  | WinA => JS.increment w (id a)
                  | WinB => JS.increment w (id b)
                  | NoWinner => w
                  end in
        mkRound w' (S (calls st))
    | _, _ => st
    end.

(** [answers.forEach(a => winCounts[a.id] = 0)]. *)
Definition init_tally (answers : list AnswerEntry) : JS.object :=
  fold_left (fun w a => JS.assign w (id a) 0%Z) answers [].

(** Comparator of the final sort: [([, a], [, b]) => b - a]. *)
Definition by_wins_desc (x y : string * Z) : Z := (snd y - snd x)%Z.

(** The comparison loop over the whole schedule. *)
Definition compare_all (answers : list AnswerEntry) (orc : oracle) : Round :=
  fold_left (compare_step answers orc) (schedule (List.length answers))
            (mkRound (init_tally answers) 0).

(** [Object.entries(winCounts).sort(...)], before the identifiers are
    projected out. *)
Definition standings (answers : list AnswerEntry) (orc : oracle) : list (string * Z) :=
  JS.sort by_wins_desc (JS.entries (winCounts (compare_all answers orc))).

Definition tournament (answers : list AnswerEntry) (orc : oracle) : Judgement * nat :=
  let st := compare_all answers orc in
  let sorted := map fst (standings answers orc) in
  let goodCount := JS.good_count (List.length sorted) in
  (mkJudgement sorted (firstn goodCount sorted), calls st).

Definition pairwiseJudge (answers : list AnswerEntry) (orc : oracle) : Judgement * nat :=
  let n := List.length answers in
  if (n <=? 1)%nat then (fallback answers, 0%nat)
  else if (n <=? 3)%nat then directRank answers orc 0
  else tournament answers orc.

(** ** Validation in processPendingChallenges (bot.ts, lines 613-631) *)

(** Body of the vote posted to [/rankings/votes]. *)
Record Vote := mkVote { answer_rankings : list string; good_answers : list string }.

Definition ranking_check (answers : list AnswerEntry) (rks : list string) : bool :=
  let allIds := JS.Set_of (ids_of answers) in
  let rankingSet := JS.Set_of rks in
  (List.length rks =? List.length allIds)%nat
  && forallb (fun i => JS.includes rankingSet i) allIds.

Definition good_check (answers : list AnswerEntry) (good : list string) : bool :=
  let allIds := JS.Set_of (ids_of answers) in
  negb (existsb (fun i => negb (JS.includes allIds i)) good).

(** [None]: the round is skipped ([continue]) and nothing is posted. *)
Definition validate (answers : list AnswerEntry) (j : Judgement) : option Vote :=
  if negb (ranking_check answers (rankings j)) then None
  else if negb (good_check answers (goodAnswers j)) then None
  else Some (mkVote (rankings j) (goodAnswers j)).

(** ** Concrete rounds *)

Definition ans (s : string) : AnswerEntry := mkAnswer s "".
Definition always (r : reply) : oracle := fun _ => r.
Definition says (w : string) : reply :=
  Responded (Some (JObject [("winner", JString w)])).

(** ** The direct ranking, as the specification words it

    These definitions follow the text of the specification (unknown
    identifiers discarded, first occurrence kept, omitted identifiers
    appended in input order); [direct_final_spec] below relates them to the
    two loops of [directRank]. *)

Fixpoint strings_of (items : list json) : list string :=
  match items with
  | [] => []
  | JString s :: rest => s :: strings_of rest
  | _ :: rest => strings_of rest
  end.

Definition discard_unknown (known l : list string) : list string :=
  filter (fun s => JS.includes known s) l.

Fixpoint keep_first_occurrence (l : list string) : list string :=
  match l with
  | [] => []
  | x :: rest => x :: filter (fun y => negb (y =? x)) (keep_first_occurrence rest)
  end.

Definition omitted (known l : list string) : list string :=
  filter (fun s => negb (JS.includes l s)) known.

Definition spec_direct_ranking (known : list string) (items : list json) : list string :=
  keep_first_occurrence (discard_unknown known (strings_of items))
  ++ omitted known (strings_of items).

(** The two loops of [directRank]. *)
Definition direct_final (allIds : list string) (items : list json) : list string :=
  fold_left complete_step allIds (fold_left (rank_step allIds) items []).

(** ** Keys of the win tally *)

Definition keys (o : JS.object) : list string := map fst o.

Definition not_proto (k : string) : bool := negb (k =? JS.proto_key).

(** Identifiers that a plain object stores like any other key: neither an
    array index nor [__proto__]. *)
Definition plain_key (k : string) : bool := negb (JS.is_index k) && not_proto k.

(** Sum of the win counts of a tally. *)
Fixpoint total (o : JS.object) : Z :=
  match o with
  | [] => 0%Z
  | (_, v) :: rest => (v + total rest)%Z
  end.

(** ** Occurrences in the comparison schedule *)

Definition left_count (i : nat) (sched : list (nat * nat)) : nat :=
  List.length (filter (fun p => (fst p =? i)%nat) sched).

Definition right_count (i : nat) (sched : list (nat * nat)) : nat :=
  List.length (filter (fun p => (snd p =? i)%nat) sched).

(** ** Oracle failure *)

(** Every call to the endpoint fails. *)
Definition total_failure (orc : oracle) : Prop := forall k, orc k = Rejected.

(** C3 as the specification states it: on total oracle failure the ranking
    is the input order and the good list is the whole input. *)
Definition fallback_as_stated (answers : list AnswerEntry) (orc : oracle) : Prop :=
  NoDup (ids_of answers) ->
  total_failure orc ->
  rankings (fst (pairwiseJudge answers orc)) = ids_of answers
  /\ goodAnswers (fst (pairwiseJudge answers orc)) = ids_of answers.

(** ** Registration script: parseChoice and evaluateWithOllama

    Strings are sequences of code units below 256 (ASCII and Latin-1), for
    which [toLowerCase] and [trim] below are the JavaScript ones. *)

Module Register.

Record Challenge := mkChallenge {
  id : string;
  question : string;
  option_a : string;
  option_b : string
}.

Record ChallengeAnswer := mkChallengeAnswer {
  challenge_id : string;
  choice : nat
}.

(** [String.prototype.toLowerCase]: A-Z, and the Latin-1 capitals
    192-214 and 216-222, move up by 32. *)
Definition lower_char (c : ascii) : ascii :=
  let n := N_of_ascii c in
  if ((65 <=? n) && (n <=? 90)
      || (192 <=? n) && (n <=? 222) && negb (n =? 215))%N
  then ascii_of_N (n + 32) else c.

Fixpoint toLowerCase (s : string) : string :=
  match s with
  | EmptyString => EmptyString
  | String c rest => String (lower_char c) (toLowerCase rest)
  end.

(** White space and line terminators: TAB, LF, VT, FF, CR, SP, NBSP. *)
Definition is_space (c : ascii) : bool :=
  let n := N_of_ascii c in
  ((9 <=? n) && (n <=? 13) || (n =? 32) || (n =? 160))%N.

Fixpoint trimStart (s : string) : string :=
  match s with
  | EmptyString => EmptyString
  | String c rest => if is_space c then trimStart rest else s
  end.

Fixpoint trimEnd (s : string) : string :=
  match s with
  | EmptyString => EmptyString
  | String c rest =>
      let rest' := trimEnd rest in
      if (rest' =? "") && is_space c then EmptyString else String c rest'
  end.

(** [String.prototype.trim]. *)
Definition trim (s : string) : string := trimEnd (trimStart s).

(** Strings made of white space only. *)
Fixpoint all_space (s : string) : bool :=
  match s with
  | EmptyString => true
  | String c rest => is_space c && all_space rest
  end.

(** [s.startsWith(p)]. *)
Definition startsWith (s p : string) : bool := String.prefix p s.

(** [s.includes(p)]. *)
Fixpoint includes (s p : string) : bool :=
  String.prefix p s
  || match s with
     | EmptyString => false
     | String _ rest => includes rest p
     end.

(** [parseInt(response.match(/[01]/)[0])]: the first 0 or 1 of the string,
    [None] when the match is [null]. *)
Fixpoint first_binary_digit (s : string) : option nat :=
  match s with
  | EmptyString => None
  | String c rest =>
      if (c =? "0")%char then Some 0
      else if (c =? "1")%char then Some 1
      else first_binary_digit rest
  end.

Definition parseChoice (response : string) : nat :=
  let cleaned := trim (toLowerCase response) in
  if (cleaned =? "0") || startsWith cleaned "0" then 0
  else if (cleaned =? "1") || startsWith cleaned "1" then 1
  else if includes cleaned "option a" || includes cleaned "option_a" then 0
  else if includes cleaned "option b" || includes cleaned "option_b" then 1
  else if startsWith cleaned "a" then 0
  else if startsWith cleaned "b" then 1
  else match first_binary_digit response with
       | Some d => d
       | None => 0
       end.

(** Outcome of one request to the model endpoint, as [askOllama] reports
    it: the trimmed text, or an [Error] with its message. *)
Inductive outcome : Type :=
| Threw (message : string)
| Returned (text : string).

(** The outcome of the k-th request of a run. *)
Definition endpoint := nat -> outcome.

(** [askOllama]: without an API key it throws before any request. The
    second component counts the requests made so far. *)
Definition askOllama (key : string) (env : endpoint) (requests : nat) : outcome * nat :=
  if key =? "" then (Threw "ANTHROPIC_API_KEY missing", requests)
  else (env requests, S requests).

Record Evaluation := mkEvaluation {
  answers : list ChallengeAnswer;
  requests : nat;
  waited : N  (* milliseconds spent in [setTimeout] *)
}.

Definition push (st : Evaluation) (c : Challenge) (d : nat) (requests' : nat) : Evaluation :=
  mkEvaluation (answers st ++ [mkChallengeAnswer (id c) d]) requests' (waited st).

Definition pause (ms : N) (st : Evaluation) : Evaluation :=
  mkEvaluation (answers st) (requests st) (waited st + ms)%N.

(** The pause that ends an iteration, unless it is the last one. *)
Definition between (last : bool) (st : Evaluation) : Evaluation :=
  if last then st else pause 5000%N st.

(** One iteration of the loop of [evaluateWithOllama]; [last] tells
    whether [i] is [challenges.length - 1]. *)
Definition evaluate_step (key : string) (env : endpoint) (last : bool)
           (st : Evaluation) (c : Challenge) : Evaluation :=
  match askOllama key env (requests st) with
  | (Returned response, k) => between last (push st c (parseChoice response) k)
  | (Threw message, k) =>
      if includes message "429" then
        match askOllama key env k with
        | (Returned response, k') =>
            (* [continue]: the pause between challenges is skipped *)
            push (pause 60000%N st) c (parseChoice response) k'
        | (Threw _, k') => between last (push (pause 60000%N st) c 0 k')
        end
      else between last (push st c 0 k)
  end.

Fixpoint evaluate_loop (key : string) (env : endpoint)
         (challenges : list Challenge) (st : Evaluation) : Evaluation :=
  match challenges with
  | [] => st
  | c :: rest =>
      evaluate_loop key env rest
        (evaluate_step key env (match rest with [] => true | _ => false end) st c)
  end.

Definition evaluateWithOllama (key : string) (env : endpoint)
           (challenges : list Challenge) : Evaluation :=
  evaluate_loop key env challenges (mkEvaluation [] 0 0%N).

End Register.

(** ** HTTP layer of the bot: doLogin, doRefreshToken, ensureAuth, apiRequest
    (bot.ts, lines 44-214)

    The network and the clock are the environment: [net k] is the outcome
    of the k-th [fetch] of a run and [clock k] the value of the k-th
    [Date.now()]. [JSON.parse] is a parameter. *)

Module Api.

(** A token variable holds what the last response carried: [None] is
    [null] or [undefined]. *)
Definition token := option json.

Definition truthy_token (t : token) : bool :=
  match t with Some v => JS.truthy v | None => false end.

(** The module variables [accessToken], [refreshToken], [lastTokenTime]. *)
Record Session := mkSession {
  accessToken : token;
  refreshToken : token;
  lastTokenTime : Z
}.

(** Body of a response: its text, or an error while reading it. *)
Inductive payload : Type :=
| Text (text : string)
| Unreadable (message : string).

Inductive fetched : Type :=
| Failed (message : string)                 (* fetch rejects *)
| Response (status : N) (body : payload).

(** What a [fetch] sends, as far as the session is concerned. *)
Inductive request : Type :=
| ApiCall (method path : string) (authorization : token)
| Login
| Refresh (refresh_token : token).

Record Env := mkEnv { net : nat -> fetched; clock : nat -> Z }.

Record World := mkWorld {
  session : Session;
  trace : list request;   (* requests sent so far, oldest first *)
  slept : N;              (* milliseconds spent in [sleep] *)
  ticks : nat             (* calls of [Date.now()] so far *)
}.

(** What [apiRequest] returns: [{_error: true, status, detail}], [{}], the
    parsed body, or [{_raw: text}]. *)
Inductive ApiResult : Type :=
| Failure (status : N) (detail : string)
| Empty
| Parsed (v : json)
| Raw (text : string).

Definition result_value (r : ApiResult) : json :=
  match r with
  | Failure status detail =>
      JObject [("_error", JBool true); ("status", JNumber (Z.of_N status));
               ("detail", JString detail)]
  | Empty => JObject []
  | Parsed v => v
  | Raw text => JObject [("_raw", JString text)]
  end.

Definition TOKEN_REFRESH_MS : Z := 12 * 60 * 1000.
Definition MAX_RETRIES : nat := 3.

(** [res.ok]. *)
Definition ok (status : N) : bool := ((200 <=? status) && (status <=? 299))%N.

Definition sleep (ms : N) (w : World) : World :=
  mkWorld (session w) (trace w) (slept w + ms)%N (ticks w).

Section WithParser.

Variable JSON_parse : string -> option json.
Variable env : Env.

Definition fetch (r : request) (w : World) : fetched * World :=
  (net env (List.length (trace w)),
   mkWorld (session w) (trace w ++ [r]) (slept w) (ticks w)).

(** The three assignments that follow [await res.json()] in [doLogin] and
    [doRefreshToken]; [None] when reading [data.tokens] or one of its
    fields throws. *)
Definition store_tokens (data : json) (w : World) : option World :=
  match JS.member data "tokens" with
  | Some (Some tokens) =>
      match JS.member tokens "access_token", JS.member tokens "refresh_token" with
      | Some access, Some refresh =>
          Some (mkWorld (mkSession access refresh (clock env (ticks w)))
                        (trace w) (slept w) (S (ticks w)))
      | _, _ => None
      end
  | _ => None
  end.

(** [await res.json()] followed by the assignments. *)
Definition accept_tokens (body : payload) (w : World) : bool * World :=
  match body with
  | Unreadable _ => (false, w)
  | Text text =>
      match JSON_parse text with
      | None => (false, w)
      | Some data =>
          match store_tokens data w with
          | Some w' => (true, w')
          | None => (false, w)
          end
      end
  end.

Definition doLogin (w : World) : bool * World :=
  let (reply, w1) := fetch Login w in
  match reply with
  | Failed _ => (false, w1)
  | Response status body =>
      if negb (ok status) then (false, w1) else accept_tokens body w1
  end.

Definition doRefreshToken (w : World) : bool * World :=
  if negb (truthy_token (refreshToken (session w))) then (false, w)
  else
    let (reply, w1) := fetch (Refresh (refreshToken (session w))) w in
    match reply with
    | Failed _ => (false, w1)
    | Response status body =>
        if negb (ok status) then (false, w1) else accept_tokens body w1
    end.

Definition ensureAuth (w : World) : bool * World :=
  if negb (truthy_token (accessToken (session w))) then doLogin w
  else
    let now := clock env (ticks w) in
    let w1 := mkWorld (session w) (trace w) (slept w) (S (ticks w)) in
    if (now - lastTokenTime (session w) >? TOKEN_REFRESH_MS)%Z then
      let (refreshed, w2) := doRefreshToken w1 in
      if refreshed then (true, w2) else doLogin w2
    else (true, w1).

(** The [for] loop of [apiRequest]: [attempt] is the loop counter and
    [remaining] the number of iterations left, this one included
    ([retries - attempt + 1]). *)
Fixpoint request_loop (method path : string) (authorization : token)
         (remaining attempt : nat) (w : World) : ApiResult * World :=
  match remaining with
  | 0 => (Failure 0 "Max retries exceeded", w)
  | S remaining' =>
      let caught (message : string) (w' : World) :=
        match remaining' with
        | 0 => (Failure 0 message, w')
        | S _ =>
            request_loop method path authorization remaining' (S attempt)
                         (sleep (5000 * N.of_nat attempt) w')
        end in
      let (reply, w1) := fetch (ApiCall method path authorization) w in
      match reply with
      | Failed message => caught message w1
      | Response status body =>
          if (status =? 401)%N then
            let (refreshed, w2) := doRefreshToken w1 in
            let w3 := if refreshed then w2 else snd (doLogin w2) in
            request_loop method path authorization remaining' (S attempt) w3
          else if (status =? 429)%N then
            request_loop method path authorization remaining' (S attempt)
                         (sleep 60000 w1)
          else if (500 <=? status)%N then
            request_loop method path authorization remaining' (S attempt)
                         (sleep 30000 w1)
          else
            match body with
            | Unreadable message => caught message w1
            | Text text =>
                if negb (ok status) then (Failure status text, w1)
                else if text =? "" then (Empty, w1)
                else match JSON_parse text with
                     | Some v => (Parsed v, w1)
                     | None => (Raw text, w1)
                     end
            end
      end
  end.

(** The [Authorization] header is built once, before the loop. *)
Definition authorization_of (s : Session) : token :=
  if truthy_token (accessToken s) then accessToken s else None.

Definition apiRequest (method path : string) (retries : nat) (w : World)
  : ApiResult * World :=
  request_loop method path (authorization_of (session w)) retries 1 w.

End WithParser.

(** Requests of [apiRequest] itself among the requests sent. *)
Definition is_api_call (r : request) : bool :=
  match r with ApiCall _ _ _ => true | _ => false end.

(** Statuses that [apiRequest] retries instead of reporting. *)
Definition retried_status (status : N) : bool :=
  ((status =? 401) || (status =? 429) || (500 <=? status))%N.

(** What one run of the retry loop adds to the world. *)
Definition loop_effect (method path : string) (authorization : token)
           (remaining attempt : nat) (w : World) (out : ApiResult * World) : Prop :=
  exists added,
    trace (snd out) = trace w ++ added
    /\ List.length (filter is_api_call added) <= remaining
    /\ List.length added <= 3 * remaining
    /\ Forall (fun q => is_api_call q = true -> q = ApiCall method path authorization)
              added
    /\ (slept w <= slept (snd out))%N
    /\ (attempt + remaining <= 13 ->
        (slept (snd out) <= slept w + 60000 * N.of_nat remaining)%N)
    /\ (forall status detail, fst out = Failure status detail ->
          status = 0%N \/ (retried_status status = false /\ ok status = false)).

(** The loop ran out of attempts: it reports so, after sending exactly
    [remaining] requests of its own. *)
Definition loop_exhausted (remaining : nat) (w : World)
           (out : ApiResult * World) : Prop :=
  fst out = Failure 0 "Max retries exceeded"
  /\ exists added,
       trace (snd out) = trace w ++ added
       /\ List.length (filter is_api_call added) = remaining.

(** A stand-in for [JSON.parse] in concrete runs. *)
Definition parse_sample (text : string) : option json :=
  if text =? "null" then Some JNull
  else if text =? "{}" then Some (JObject [])
  else if text =? "tokens" then
    Some (JObject [("tokens", JObject [("access_token", JString "fresh");
                                       ("refresh_token", JString "next")])])
  else None.

(** A run whose [fetch] calls receive the given replies in order, then
    network errors; the clock stands still. *)
Definition scripted (replies : list fetched) : Env :=
  mkEnv (fun k => nth k replies (Failed "offline")) (fun _ => 0%Z).

(** The bot before its first login, and after one. *)
Definition fresh_world : World := mkWorld (mkSession None None 0) [] 0 0.

Definition logged_in : World :=
  mkWorld (mkSession (Some (JString "old")) (Some (JString "renew")) 0) [] 0 0.

End Api.

(** ** Registration script: the configuration files

    [saveConfig], [loadConfig], [saveCredentials] and [login]. A file is
    absent, holds text that [JSON.parse] rejects, or holds a JSON value (a
    value written with [JSON.stringify] is read back as itself). The file
    system itself does not fail. *)

Module Config.

Inductive file : Type :=
| Missing
| Garbage
| Holds (v : json).

(** [config.json] and [secret.json] in the configuration directory. *)
Record Disk := mkDisk { config_file : file; secret_file : file }.

Definition props := list (string * json).

Fixpoint has_key (k : string) (o : props) : bool :=
  match o with
  | [] => false
  | (k', _) :: rest => (k' =? k) || has_key k rest
  end.

Fixpoint replace (k : string) (v : json) (o : props) : props :=
  match o with
  | [] => []
  | (k', v') :: rest =>
      if k' =? k then (k', v) :: rest else (k', v') :: replace k v rest
  end.

(** Defining the property [k] of an object under construction. *)
Definition define (o : props) (kv : string * json) : props :=
  if has_key (fst kv) o then replace (fst kv) (snd kv) o else o ++ [kv].

(** Keys of the elements of an array or of the characters of a string. *)
Fixpoint indexed (i : nat) (items : list json) : props :=
  match items with
  | [] => []
  | v :: rest => (DecimalString.NilEmpty.string_of_uint (Nat.to_uint i), v) :: indexed (S i) rest
  end.

(** Own enumerable properties copied by [...v]. *)
Definition own_props (v : json) : props :=
  match v with
  | JObject fields => fields
  | JArray items => indexed 0 items
  | JString s => indexed 0 (JS.chars s)
  | _ => []
  end.

(** [{ ...existing, ...data }]. *)
Definition merge (existing : json) (data : props) : props :=
  fold_left define data (fold_left define (own_props existing) []).

(** [None]: [JSON.parse] throws on the existing file and nothing is
    written. *)
Definition saveConfig (data : props) (d : Disk) : option Disk :=
  match config_file d with
  | Garbage => None
  | Missing => Some (mkDisk (Holds (JObject (merge (JObject []) data))) (secret_file d))
  | Holds existing => Some (mkDisk (Holds (JObject (merge existing data))) (secret_file d))
  end.

Definition loadConfig (d : Disk) : option json :=
  match config_file d with
  | Garbage => None
  | Missing => Some (JObject [])
  | Holds v => Some v
  end.

(** The record written by [saveCredentials]; [now] is
    [new Date().toISOString()]. *)
Definition credentials (agentId now : string) : props :=
  [("agent_id", JString agentId);
   ("interaction_profile", JString "idle");
   ("last_heartbeat", JString now);
   ("report_verbosity", JString "normal");
   ("inference_cost", JString "free");
   ("paid_mode", JNull);
   ("tracked_queries", JArray []);
   ("last_swarm_reminder", JNull);
   ("swarm_reminders_disabled", JBool false);
   ("swarm_reminder_declines", JNumber 0)].

Definition saveCredentials (agentId secret now : string) (d : Disk) : option Disk :=
  match saveConfig (credentials agentId now) d with
  | None => None
  | Some d' =>
      Some (mkDisk (config_file d')
                   (Holds (JObject [("agent_id", JString agentId);
                                    ("secret", JString secret)])))
  end.

Record Tokens := mkTokens { access_token : string; refresh_token : string }.

(** Outcome of the request of [login]: no answer, or a status with the
    body as [res.json()] reads it ([None] when it throws). *)
Inductive login_reply : Type :=
| Unreachable
| Answered (status : N) (tokens : option Tokens).

Definition login (reply : login_reply) (d : Disk) : option (Tokens * Disk) :=
  match reply with
  | Unreachable => None
  | Answered status body =>
      if negb (Api.ok status) then None
      else match body with
           | None => None
           | Some t =>
               match saveConfig [("access_token", JString (access_token t));
                                 ("refresh_token", JString (refresh_token t))] d with
               | Some d' => Some (t, d')
               | None => None
               end
           end
  end.

(** The value that [saveConfig] merges into. *)
Definition current (d : Disk) : json :=
  match config_file d with
  | Holds v => v
  | _ => JObject []
  end.

(** Objects list every key once. *)
Definition distinct_keys (o : props) : Prop := NoDup (map fst o).

(** Reading a property of the stored configuration. *)
Definition stored (k : string) (f : file) : option json :=
  match f with
  | Holds (JObject fields) => JS.lookup k fields
  | _ => None
  end.

End Config.

(** ** Registration script: the retry loop of main

    The loop that registers, evaluates the challenges, submits the answers
    and, when the result passed, saves the credentials and logs in. Each
    attempt meets its own environment: the replies of the server, the model
    endpoint and the time. *)

Module Signup.

Record RegistrationResponse := mkResponse {
  challenge_session_id : string;
  challenges : list Register.Challenge
}.

Record RegistrationResult := mkResult {
  agent_id : string;
  secret : string;
  correct_count : nat;
  passed : bool
}.

(** Outcome of a request: no answer, or a status with the body as
    [res.json()] reads it ([None] when it throws). *)
Inductive reply (A : Type) : Type :=
| Unreachable
| Answered (status : N) (body : option A).

Arguments Unreachable {A}.
Arguments Answered {A} status body.

(** [None]: the function throws. *)
Definition startRegistration (r : reply RegistrationResponse)
  : option RegistrationResponse :=
  match r with
  | Unreachable => None
  | Answered status body =>
      if negb (Api.ok status) then None
      else match body with
           | None => None
           | Some data =>
               if (challenge_session_id data =? "")
                  || (List.length (challenges data) =? 0)%nat
               then None else Some data
           end
  end.

Definition submitResponses (r : reply RegistrationResult) : option RegistrationResult :=
  match r with
  | Unreachable => None
  | Answered status body => if negb (Api.ok status) then None else body
  end.

Record Attempt := mkAttempt {
  register : reply RegistrationResponse;
  model : Register.endpoint;
  complete : reply RegistrationResult;
  today : string;                    (* [new Date().toISOString()] *)
  signin : Config.login_reply
}.

Record Run := mkRun {
  disk : Config.Disk;
  started : nat;      (* registrations requested *)
  posted : list (RegistrationResponse * list Register.ChallengeAnswer);
                      (* answers submitted, with the registration they answer *)
  waited : N          (* milliseconds spent waiting *)
}.

(** How [main] ends: it returns after a login, or exits with code 1. *)
Inductive exit : Type :=
| Registered (agent : string)
| GaveUp.

Definition MAX_RETRIES : nat := 3.

Definition wait (ms : N) (st : Run) : Run :=
  mkRun (disk st) (started st) (posted st) (waited st + ms)%N.

(** The body of the [try] block of one attempt. [inl]: the loop goes on,
    after a throw ([true]) or a result that did not pass ([false]). *)
Definition attempt_body (key : string) (e : Attempt) (st : Run)
  : (bool * Run) + (string * Run) :=
  let st1 := mkRun (disk st) (S (started st)) (posted st) (waited st) in
  match startRegistration (register e) with
  | None => inl (true, st1)
  | Some reg =>
      let ev := Register.evaluateWithOllama key (model e) (challenges reg) in
      let st2 := mkRun (disk st1) (started st1)
                       (posted st1 ++ [(reg, Register.answers ev)])
                       (waited st1 + Register.waited ev)%N in
      match submitResponses (complete e) with
      | None => inl (true, st2)
      | Some result =>
          if passed result then
            match Config.saveCredentials (agent_id result) (secret result)
                                         (today e) (disk st2) with
            | None => inl (true, st2)
            | Some d1 =>
                let st3 := mkRun d1 (started st2) (posted st2) (waited st2) in
                match Config.login (signin e) d1 with
                | None => inl (true, st3)
                | Some (_, d2) =>
                    inr (agent_id result,
                         mkRun d2 (started st3) (posted st3) (waited st3))
                end
            end
          else inl (false, wait 2000 st2)
      end
  end.

(** The [while] loop: [attempt] is the counter after its increment and
    [remaining] the number of iterations left, this one included. *)
Fixpoint attempts (key : string) (envs : nat -> Attempt)
         (remaining attempt : nat) (st : Run) : exit * Run :=
  match remaining with
  | 0 => (GaveUp, st)
  | S remaining' =>
      match attempt_body key (envs attempt) st with
      | inr (agent, st') => (Registered agent, st')
      | inl (thrown, st') =>
          let st'' :=
            if thrown then
              match remaining' with 0 => st' | S _ => wait 3000 st' end
            else st' in
          attempts key envs remaining' (S attempt) st''
      end
  end.

Definition registration_loop (key : string) (envs : nat -> Attempt)
           (d : Config.Disk) : exit * Run :=
  attempts key envs MAX_RETRIES 1 (mkRun d 0 [] 0).

(** Answers that fit the registration they are submitted for. *)
Definition well_formed_post
           (p : RegistrationResponse * list Register.ChallengeAnswer) : Prop :=
  challenge_session_id (fst p) <> ""
  /\ challenges (fst p) <> []
  /\ map Register.challenge_id (snd p) = map Register.id (challenges (fst p))
  /\ Forall (fun a => Register.choice a <= 1) (snd p).

Definition state_after (out : (bool * Run) + (string * Run)) : Run :=
  match out with inl (_, st') => st' | inr (_, st') => st' end.

End Signup.

(** ** Membership, sets and lists *)

Section ListFacts.

Lemma includes_In (l : list string) (x : string) :
  JS.includes l x = true <-> In x l.
Proof.
  unfold JS.includes. rewrite existsb_exists. split.
  - intros [y [Hy E]]. apply String.eqb_eq in E. now subst.
  - intros H. exists x. split; [assumption | apply String.eqb_refl].
Qed.

Lemma includes_false (l : list string) (x : string) :
  JS.includes l x = false <-> ~ In x l.
Proof.
  rewrite <- includes_In. destruct (JS.includes l x); split; congruence.
Qed.

Lemma Set_add_In (s : list string) (x y : string) :
  In y (JS.Set_add s x) <-> In y s \/ y = x.
Proof.
  unfold JS.Set_add. destruct (JS.includes s x) eqn:E.
  - apply includes_In in E. split; [tauto | intros [H | ->]; assumption].
  - rewrite in_app_iff. simpl. intuition congruence.
Qed.

Lemma NoDup_snoc (A : Type) (l : list A) (x : A) :
  NoDup l -> ~ In x l -> NoDup (l ++ [x]).
Proof.
  intros Hl Hx. apply NoDup_rev in Hl.
  rewrite <- (rev_involutive (l ++ [x])). apply NoDup_rev.
  rewrite rev_app_distr. simpl. constructor; [| assumption].
  now rewrite <- in_rev.
Qed.

Lemma Set_add_NoDup (s : list string) (x : string) :
  NoDup s -> NoDup (JS.Set_add s x).
Proof.
  intros Hs. unfold JS.Set_add. destruct (JS.includes s x) eqn:E.
  - assumption.
  - apply NoDup_snoc; [assumption | now apply includes_false].
Qed.

Lemma Set_fold_In (xs acc : list string) (y : string) :
  In y (fold_left JS.Set_add xs acc) <-> In y acc \/ In y xs.
Proof.
  revert acc. induction xs as [| x xs IH]; intros acc; simpl.
  - tauto.
  - rewrite IH, Set_add_In. intuition congruence.
Qed.

Lemma Set_fold_NoDup (xs acc : list string) :
  NoDup acc -> NoDup (fold_left JS.Set_add xs acc).
Proof.
  revert acc. induction xs as [| x xs IH]; intros acc Hacc; simpl.
  - assumption.
  - apply IH. now apply Set_add_NoDup.
Qed.

Lemma Set_of_In (xs : list string) (y : string) :
  In y (JS.Set_of xs) <-> In y xs.
Proof. unfold JS.Set_of. rewrite Set_fold_In. simpl. tauto. Qed.

Lemma Set_of_NoDup (xs : list string) : NoDup (JS.Set_of xs).
Proof. apply Set_fold_NoDup. constructor. Qed.

Lemma Set_fold_distinct (xs acc : list string) :
  NoDup (acc ++ xs) -> fold_left JS.Set_add xs acc = acc ++ xs.
Proof.
  revert acc. induction xs as [| x xs IH]; intros acc H; simpl.
  - now rewrite app_nil_r.
  - assert (Hx : ~ In x acc).
    { intros Hin. apply NoDup_remove_2 in H. apply H.
      apply in_or_app. now left. }
    unfold JS.Set_add at 2. apply includes_false in Hx. rewrite Hx.
    rewrite IH; rewrite <- app_assoc; simpl; [reflexivity | assumption].
Qed.

(** A set built from pairwise distinct identifiers lists them in input
    order. *)
Lemma Set_of_distinct (xs : list string) : NoDup xs -> JS.Set_of xs = xs.
Proof. intros H. unfold JS.Set_of. now rewrite Set_fold_distinct. Qed.

Lemma firstn_incl_list (A : Type) (k : nat) (l : list A) (x : A) :
  In x (firstn k l) -> In x l.
Proof.
  intros H. rewrite <- (firstn_skipn k l). apply in_or_app. now left.
Qed.

Lemma ceil_half_bounds (n : nat) :
  n <= 2 * JS.ceil_half n /\ 2 * JS.ceil_half n <= n + 1.
Proof.
  unfold JS.ceil_half.
  pose proof (Nat.div_mod_eq (n + 1) 2) as E.
  pose proof (Nat.mod_upper_bound (n + 1) 2) as B. lia.
Qed.

Lemma good_count_pos (n : nat) : 1 <= JS.good_count n.
Proof. unfold JS.good_count. lia. Qed.

Lemma good_count_ceil (n : nat) : 1 <= n -> JS.good_count n = JS.ceil_half n.
Proof.
  intros H. unfold JS.good_count. pose proof (ceil_half_bounds n). lia.
Qed.

End ListFacts.

(** ** The two loops of directRank *)

Section DirectRank.

Lemma filter_twice (A : Type) (f g : A -> bool) (l : list A) :
  filter f (filter g l) = filter (fun x => g x && f x) l.
Proof.
  induction l as [| a l IH]; simpl; [reflexivity |].
  destruct (g a); simpl; [destruct (f a) |]; now rewrite IH.
Qed.

Lemma keep_first_In (l : list string) (x : string) :
  In x (keep_first_occurrence l) <-> In x l.
Proof.
  induction l as [| a l IH]; simpl; [tauto |].
  rewrite filter_In, IH, negb_true_iff, String.eqb_neq.
  destruct (string_dec a x); intuition congruence.
Qed.

Lemma keep_first_NoDup (l : list string) : NoDup (keep_first_occurrence l).
Proof.
  induction l as [| a l IH]; simpl; constructor.
  - rewrite filter_In, negb_true_iff, String.eqb_neq. tauto.
  - now apply NoDup_filter.
Qed.

Lemma keep_first_distinct (l : list string) :
  NoDup l -> keep_first_occurrence l = l.
Proof.
  induction 1 as [| a l Ha Hl IH]; simpl; [reflexivity |].
  rewrite IH. f_equal. apply forallb_filter_id. apply forallb_forall.
  intros y Hy. rewrite negb_true_iff, String.eqb_neq. congruence.
Qed.

Lemma includes_snoc (l : list string) (x y : string) :
  JS.includes (l ++ [x]) y = JS.includes l y || (y =? x).
Proof.
  unfold JS.includes. rewrite existsb_app. simpl. now rewrite orb_false_r.
Qed.

(** First loop, from any intermediate array. *)
Lemma rank_loop_spec (allIds : list string) (items : list json) (acc : list string) :
  fold_left (rank_step allIds) items acc
  = acc ++ filter (fun y => negb (JS.includes acc y))
                  (keep_first_occurrence (discard_unknown allIds (strings_of items))).
Proof.
  revert acc. induction items as [| v items IH]; intros acc; simpl.
  - now rewrite app_nil_r.
  - destruct v; simpl; try apply IH.
    destruct (JS.includes allIds s) eqn:Hk; simpl; [| apply IH].
    destruct (JS.includes acc s) eqn:Hs; simpl; rewrite IH.
    + f_equal. rewrite filter_twice. apply filter_ext_in. intros y _.
      destruct (String.eqb_spec y s) as [-> |]; simpl; [now rewrite Hs | reflexivity].
    + rewrite <- app_assoc. simpl. do 2 f_equal.
      rewrite filter_twice. apply filter_ext. intros y.
      rewrite includes_snoc, negb_orb. apply andb_comm.
Qed.

(** Second loop, over a duplicate-free set. *)
Lemma complete_loop_spec (l acc : list string) :
  NoDup l ->
  fold_left complete_step l acc
  = acc ++ filter (fun y => negb (JS.includes acc y)) l.
Proof.
  intros Hl. revert acc.
  induction Hl as [| x l Hx Hl IH]; intros acc; simpl.
  - now rewrite app_nil_r.
  - unfold complete_step at 2.
    destruct (JS.includes acc x) eqn:Hs; simpl; rewrite IH; [reflexivity |].
    rewrite <- app_assoc. simpl. do 2 f_equal.
    apply filter_ext_in. intros y Hy. rewrite includes_snoc.
    destruct (String.eqb_spec y x) as [-> |]; [contradiction |].
    now rewrite orb_false_r.
Qed.

(** The loops of [directRank] compute the ranking the specification
    describes. *)
Lemma direct_final_spec (allIds : list string) (items : list json) :
  NoDup allIds ->
  direct_final allIds items = spec_direct_ranking allIds items.
Proof.
  intros Hn. unfold direct_final, spec_direct_ranking, omitted.
  rewrite complete_loop_spec by assumption.
  rewrite rank_loop_spec. simpl.
  rewrite forallb_filter_id by (apply forallb_forall; reflexivity).
  f_equal. apply filter_ext_in. intros y Hy. f_equal.
  apply eq_true_iff_eq. rewrite !includes_In, keep_first_In.
  unfold discard_unknown. rewrite filter_In, includes_In. tauto.
Qed.

Lemma spec_direct_ranking_In (known : list string) (items : list json) (x : string) :
  In x (spec_direct_ranking known items) <-> In x known.
Proof.
  unfold spec_direct_ranking, omitted, discard_unknown.
  rewrite in_app_iff, keep_first_In, !filter_In, includes_In,
    negb_true_iff, includes_false.
  destruct (in_dec string_dec x (strings_of items)); tauto.
Qed.

Lemma spec_direct_ranking_NoDup (known : list string) (items : list json) :
  NoDup known -> NoDup (spec_direct_ranking known items).
Proof.
  intros Hn. unfold spec_direct_ranking, omitted, discard_unknown.
  apply NoDup_app.
  - apply keep_first_NoDup.
  - now apply NoDup_filter.
  - intros x H1 H2. rewrite keep_first_In, filter_In in H1.
    rewrite filter_In, negb_true_iff, includes_false in H2. tauto.
Qed.

Lemma direct_final_perm (allIds : list string) (items : list json) :
  NoDup allIds -> Permutation (direct_final allIds items) allIds.
Proof.
  intros Hn. rewrite direct_final_spec by assumption.
  apply NoDup_Permutation;
    [now apply spec_direct_ranking_NoDup | assumption |].
  intros x. apply spec_direct_ranking_In.
Qed.

Lemma filter_known_In (allIds : list string) (good : list json) (x : string) :
  In x (filter_known allIds good) -> In x allIds.
Proof.
  induction good as [| v good IH]; simpl; [tauto |].
  destruct v; try exact IH.
  destruct (JS.includes allIds s) eqn:E; [| exact IH].
  intros [<- | H]; [now apply includes_In | now apply IH].
Qed.

Lemma filter_known_spec (allIds : list string) (good : list json) :
  filter_known allIds good = discard_unknown allIds (strings_of good).
Proof.
  induction good as [| v good IH]; simpl; [reflexivity |].
  destruct v; simpl; try exact IH.
  destruct (JS.includes allIds s); now rewrite IH.
Qed.

(** Whatever the oracle answers, a direct ranking over distinct
    identifiers is a permutation of them and its good list is a
    non-empty (when there are answers) sub-list of known identifiers. *)
Lemma directRank_try_sound (answers : list AnswerEntry) (r : reply) (j : Judgement) :
  NoDup (ids_of answers) ->
  directRank_try answers r = Some j ->
  Permutation (rankings j) (ids_of answers)
  /\ (forall x, In x (goodAnswers j) -> In x (ids_of answers))
  /\ (answers <> [] -> goodAnswers j <> []).
Proof.
  intros Hn. unfold directRank_try.
  destruct r as [| [parsed |]]; try discriminate.
  rewrite (Set_of_distinct Hn).
  destruct (JS.member parsed "answer_rankings") as [ranked |]; try discriminate.
  destruct (JS.member parsed "good_answers") as [good |]; try discriminate.
  destruct (JS.iterate (JS.or_empty ranked)) as [items |]; try discriminate.
  destruct (JS.as_array (JS.or_empty good)) as [gitems |]; try discriminate.
  intros E. injection E as <-. cbn [rankings goodAnswers].
  fold (direct_final (ids_of answers) items).
  pose proof (direct_final_perm items Hn) as P.
  split; [exact P |].
  destruct (filter_known (ids_of answers) gitems) as [| g gs] eqn:Eg;
    cbn [List.length Nat.ltb Nat.leb].
  - destruct (direct_final (ids_of answers) items) as [| y ys] eqn:Ed.
    + apply Permutation_nil in P.
      split; [intros x [] |].
      intros Hne. destruct answers; [congruence | discriminate].
    + split; [| discriminate].
      intros x [<- | []]. eapply Permutation_in; [exact P | now left].
  - split; [| discriminate].
    intros x Hx. rewrite <- Eg in Hx. now apply filter_known_In in Hx.
Qed.

End DirectRank.

(** ** The win tally as a JavaScript object *)

Section Tally.

Lemma has_own_keys (o : JS.object) (k : string) :
  JS.has_own o k = JS.includes (keys o) k.
Proof.
  unfold JS.has_own, JS.includes, keys.
  induction o as [| [k' v] o IH]; simpl; [reflexivity |].
  now rewrite IH, (String.eqb_sym k' k).
Qed.

Lemma keys_replace_own (o : JS.object) (k : string) (v : Z) :
  keys (JS.replace_own o k v) = keys o.
Proof.
  induction o as [| [k' v'] o IH]; simpl; [reflexivity |].
  destruct (k' =? k); simpl; [reflexivity | now rewrite IH].
Qed.

Lemma keys_assign (o : JS.object) (k : string) (v : Z) :
  keys (JS.assign o k v)
  = if not_proto k then JS.Set_add (keys o) k else keys o.
Proof.
  unfold JS.assign, not_proto, JS.Set_add.
  destruct (k =? JS.proto_key); simpl; [reflexivity |].
  rewrite has_own_keys. destruct (JS.includes (keys o) k).
  - apply keys_replace_own.
  - unfold keys. now rewrite map_app.
Qed.

Lemma get_own_has_own (o : JS.object) (k : string) (v : Z) :
  JS.get_own o k = Some v -> JS.has_own o k = true.
Proof.
  unfold JS.has_own. induction o as [| [k' v'] o IH]; simpl; [discriminate |].
  destruct (k' =? k); simpl; [reflexivity | exact IH].
Qed.

(** [o[k]++] never creates or removes a property of an initialised
    tally. *)
Lemma keys_increment (o : JS.object) (k : string) :
  keys (JS.increment o k) = keys o.
Proof.
  unfold JS.increment. destruct (k =? JS.proto_key) eqn:Ep; [reflexivity |].
  destruct (JS.get_own o k) as [v |] eqn:Eg; [| reflexivity].
  unfold JS.assign. rewrite Ep, (get_own_has_own _ _ Eg).
  apply keys_replace_own.
Qed.

Lemma init_fold (answers : list AnswerEntry) (w : JS.object) :
  NoDup (keys w ++ ids_of answers) ->
  fold_left (fun w a => JS.assign w (id a) 0%Z) answers w
  = w ++ map (fun k => (k, 0%Z)) (filter not_proto (ids_of answers)).
Proof.
  revert w. induction answers as [| a answers IH]; intros w Hn; simpl.
  - now rewrite app_nil_r.
  - simpl in Hn. pose proof (NoDup_remove_1 _ _ _ Hn) as Hn1.
    pose proof (NoDup_remove_2 _ _ _ Hn) as Hn2.
    unfold JS.assign at 2, not_proto.
    destruct (id a =? JS.proto_key); simpl.
    + now apply IH.
    + rewrite has_own_keys.
      assert (Hfresh : JS.includes (keys w) (id a) = false).
      { apply includes_false. intros Hin. apply Hn2, in_or_app. now left. }
      rewrite Hfresh, IH.
      * now rewrite <- app_assoc.
      * unfold keys. rewrite map_app. simpl. rewrite <- app_assoc. exact Hn.
Qed.

(** After [answers.forEach(a => winCounts[a.id] = 0)] the tally holds a
    zero for every identifier except [__proto__], in input order. *)
Lemma init_tally_distinct (answers : list AnswerEntry) :
  NoDup (ids_of answers) ->
  init_tally answers = map (fun k => (k, 0%Z)) (filter not_proto (ids_of answers)).
Proof. intros Hn. unfold init_tally. now rewrite init_fold. Qed.

Lemma keys_init_tally (answers : list AnswerEntry) :
  NoDup (ids_of answers) ->
  keys (init_tally answers) = filter not_proto (ids_of answers).
Proof.
  intros Hn. rewrite init_tally_distinct by assumption.
  unfold keys. rewrite map_map. simpl. apply map_id.
Qed.

Lemma keys_compare_step answers orc st p :
  keys (winCounts (compare_step answers orc st p)) = keys (winCounts st).
Proof.
  unfold compare_step. destruct p as [iA iB].
  destruct (iA =? iB)%nat; [reflexivity |].
  destruct (nth_error answers iA) as [a |]; [| reflexivity].
  destruct (nth_error answers iB) as [b |]; [| reflexivity].
  simpl. destruct (verdict_of (orc (calls st)));
    [apply keys_increment | apply keys_increment | reflexivity].
Qed.

Lemma keys_compare_loop answers orc sched st :
  keys (winCounts (fold_left (compare_step answers orc) sched st))
  = keys (winCounts st).
Proof.
  revert st. induction sched as [| p sched IH]; intros st; simpl.
  - reflexivity.
  - now rewrite IH, keys_compare_step.
Qed.

(** A round in which no comparison names a winner leaves the tally as
    initialised. *)
Lemma compare_loop_no_winner answers orc sched st :
  (forall k, verdict_of (orc k) = NoWinner) ->
  winCounts (fold_left (compare_step answers orc) sched st) = winCounts st.
Proof.
  intros Hv. revert st. induction sched as [| p sched IH]; intros st; simpl.
  - reflexivity.
  - rewrite IH. unfold compare_step. destruct p as [iA iB].
    destruct (iA =? iB)%nat; [reflexivity |].
    destruct (nth_error answers iA) as [a |]; [| reflexivity].
    destruct (nth_error answers iB) as [b |]; [| reflexivity].
    simpl. now rewrite Hv.
Qed.

(** *** Object.entries *)

Lemma insert_by_index_perm (e : string * Z) (l : list (string * Z)) :
  Permutation (JS.insert_by_index e l) (e :: l).
Proof.
  induction l as [| e' l IH]; simpl; [apply Permutation_refl |].
  destruct (JS.index_of (fst e) <=? JS.index_of (fst e'))%N.
  - apply Permutation_refl.
  - rewrite IH. apply perm_swap.
Qed.

Lemma index_sort_perm (l : list (string * Z)) :
  Permutation (fold_right JS.insert_by_index [] l) l.
Proof.
  induction l as [| e l IH]; simpl; [constructor |].
  rewrite insert_by_index_perm. now constructor.
Qed.

Lemma filter_split_perm (A : Type) (f : A -> bool) (l : list A) :
  Permutation (filter f l ++ filter (fun x => negb (f x)) l) l.
Proof.
  induction l as [| a l IH]; simpl; [constructor |].
  destruct (f a); simpl.
  - now constructor.
  - rewrite <- Permutation_middle. now constructor.
Qed.

Lemma entries_perm (o : JS.object) : Permutation (JS.entries o) o.
Proof.
  unfold JS.entries. rewrite index_sort_perm. apply filter_split_perm.
Qed.

(** Without array-index keys, [Object.entries] follows creation order. *)
Lemma entries_plain (o : JS.object) :
  forallb (fun k => negb (JS.is_index k)) (keys o) = true ->
  JS.entries o = o.
Proof.
  intros H. unfold JS.entries, keys in *.
  assert (Hsplit : filter (fun e => JS.is_index (fst e)) o = []
                   /\ filter (fun e => negb (JS.is_index (fst e))) o = o).
  { induction o as [| e o IH]; simpl in *; [now split |].
    apply andb_true_iff in H. destruct H as [He Ho].
    rewrite He. apply negb_true_iff in He. rewrite He.
    destruct (IH Ho) as [-> ->]. now split. }
  destruct Hsplit as [-> ->]. reflexivity.
Qed.

(** *** Array.prototype.sort with the comparator of the tournament *)

Lemma sort_insert_perm (A : Type) (cmp : A -> A -> Z) (x : A) (l : list A) :
  Permutation (JS.sort_insert cmp x l) (x :: l).
Proof.
  induction l as [| y l IH]; simpl; [apply Permutation_refl |].
  destruct (cmp x y >? 0)%Z.
  - rewrite IH. apply perm_swap.
  - apply Permutation_refl.
Qed.

Lemma sort_perm (A : Type) (cmp : A -> A -> Z) (l : list A) :
  Permutation (JS.sort cmp l) l.
Proof.
  unfold JS.sort. induction l as [| x l IH]; simpl; [constructor |].
  rewrite sort_insert_perm. now constructor.
Qed.

(** Stability: the entries that share a win count keep their relative
    order. *)
Lemma sort_insert_stable (c : Z) (x : string * Z) (l : list (string * Z)) :
  filter (fun e => (snd e =? c)%Z) (JS.sort_insert by_wins_desc x l)
  = filter (fun e => (snd e =? c)%Z) (x :: l).
Proof.
  induction l as [| y l IH]; [reflexivity |].
  cbn [JS.sort_insert]. unfold by_wins_desc at 1.
  destruct (snd y - snd x >? 0)%Z eqn:E; [| reflexivity].
  cbn [filter] in *. rewrite IH.
  destruct (Z.eqb_spec (snd x) c), (Z.eqb_spec (snd y) c); try reflexivity.
  apply Z.gtb_lt in E. lia.
Qed.

Lemma sort_stable (c : Z) (l : list (string * Z)) :
  filter (fun e => (snd e =? c)%Z) (JS.sort by_wins_desc l)
  = filter (fun e => (snd e =? c)%Z) l.
Proof.
  unfold JS.sort. induction l as [| x l IH]; [reflexivity |].
  cbn [fold_right]. rewrite sort_insert_stable. cbn [filter].
  now rewrite IH.
Qed.

(** Equal counts everywhere: the sort changes nothing. *)
Lemma sort_all_equal (c : Z) (l : list (string * Z)) :
  forallb (fun e => (snd e =? c)%Z) l = true ->
  JS.sort by_wins_desc l = l.
Proof.
  intros H.
  rewrite <- (forallb_filter_id _ _ H) at 2.
  rewrite <- (sort_stable c l).
  symmetry. apply forallb_filter_id. apply forallb_forall.
  intros e He. apply (Permutation_in _ (sort_perm by_wins_desc l)) in He.
  rewrite forallb_forall in H. now apply H.
Qed.

Lemma filter_drop_one (k : string) (l : list string) :
  NoDup l ->
  List.length l <= S (List.length (filter (fun x => negb (x =? k)) l)).
Proof.
  induction 1 as [| a l Ha Hl IH]; simpl; [lia |].
  destruct (String.eqb_spec a k) as [-> |]; simpl; [| lia].
  rewrite forallb_filter_id; [lia |].
  apply forallb_forall. intros y Hy.
  rewrite negb_true_iff, String.eqb_neq. congruence.
Qed.

End Tally.

(** ** Results of a tournament round *)

Section Tournament.

Variable answers : list AnswerEntry.
Variable orc : oracle.

Lemma tournament_rankings :
  rankings (fst (tournament answers orc)) = map fst (standings answers orc).
Proof. reflexivity. Qed.

(** The good list is cut from the ranking that is returned. *)
Lemma tournament_good :
  goodAnswers (fst (tournament answers orc))
  = firstn (JS.good_count (List.length (rankings (fst (tournament answers orc)))))
           (rankings (fst (tournament answers orc))).
Proof. reflexivity. Qed.

(** Every own key of the tally is ranked once: the ranking is a
    permutation of the identifiers other than [__proto__]. *)
Lemma tournament_rankings_perm :
  NoDup (ids_of answers) ->
  Permutation (rankings (fst (tournament answers orc)))
              (filter not_proto (ids_of answers)).
Proof.
  intros Hn. rewrite tournament_rankings. unfold standings.
  rewrite sort_perm, entries_perm.
  fold (keys (winCounts (compare_all answers orc))).
  unfold compare_all. rewrite keys_compare_loop. simpl.
  now rewrite keys_init_tally.
Qed.

Lemma filter_not_proto_id (l : list string) :
  forallb not_proto l = true -> filter not_proto l = l.
Proof. apply forallb_filter_id. Qed.

Lemma tournament_rankings_perm_ids :
  NoDup (ids_of answers) ->
  forallb not_proto (ids_of answers) = true ->
  Permutation (rankings (fst (tournament answers orc))) (ids_of answers).
Proof.
  intros Hn Hp. rewrite tournament_rankings_perm by assumption.
  now rewrite filter_not_proto_id.
Qed.

Lemma tournament_rankings_length :
  NoDup (ids_of answers) ->
  List.length answers
  <= S (List.length (rankings (fst (tournament answers orc)))).
Proof.
  intros Hn. rewrite (Permutation_length (tournament_rankings_perm Hn)).
  replace (List.length answers) with (List.length (ids_of answers))
    by apply length_map.
  now apply filter_drop_one.
Qed.

Lemma plain_keys_split (l : list string) :
  forallb plain_key l = true ->
  forallb (fun k => negb (JS.is_index k)) l = true
  /\ forallb not_proto l = true.
Proof.
  induction l as [| k l IH]; simpl; [now split |].
  unfold plain_key at 1. rewrite !andb_true_iff.
  intros [[H1 H2] H3]. destruct (IH H3). tauto.
Qed.

(** With plain identifiers and no winner in any comparison the ranking
    is the input order. *)
Lemma tournament_no_winner :
  NoDup (ids_of answers) ->
  forallb plain_key (ids_of answers) = true ->
  (forall k, verdict_of (orc k) = NoWinner) ->
  rankings (fst (tournament answers orc)) = ids_of answers.
Proof.
  intros Hn Hp Hv. destruct (plain_keys_split _ Hp) as [Hidx Hproto].
  rewrite tournament_rankings. unfold standings, compare_all.
  rewrite compare_loop_no_winner by assumption. simpl.
  rewrite init_tally_distinct by assumption.
  rewrite filter_not_proto_id by assumption.
  rewrite entries_plain.
  - rewrite (@sort_all_equal 0%Z).
    + rewrite map_map. simpl. apply map_id.
    + rewrite forallb_forall. intros e He. apply in_map_iff in He.
      destruct He as [k [<- _]]. reflexivity.
  - unfold keys. rewrite map_map. simpl. now rewrite map_id.
Qed.

End Tournament.

Lemma pairwiseJudge_direct answers orc :
  2 <= List.length answers <= 3 ->
  pairwiseJudge answers orc = directRank answers orc 0.
Proof.
  intros [H2 H3]. unfold pairwiseJudge.
  destruct (Nat.leb_spec (List.length answers) 1); [lia |].
  destruct (Nat.leb_spec (List.length answers) 3); [reflexivity | lia].
Qed.

Lemma pairwiseJudge_tournament answers orc :
  4 <= List.length answers ->
  pairwiseJudge answers orc = tournament answers orc.
Proof.
  intros H4. unfold pairwiseJudge.
  destruct (Nat.leb_spec (List.length answers) 1); [lia |].
  destruct (Nat.leb_spec (List.length answers) 3); [lia | reflexivity].
Qed.

Lemma pairwiseJudge_trivial answers orc :
  List.length answers <= 1 ->
  pairwiseJudge answers orc = (fallback answers, 0).
Proof.
  intros H1. unfold pairwiseJudge.
  destruct (Nat.leb_spec (List.length answers) 1); [reflexivity | lia].
Qed.

(** Whenever no identifier is [__proto__], the ranking is a permutation of
    the input identifiers, whatever the oracle does. *)
Lemma pairwiseJudge_rankings_perm answers orc :
  NoDup (ids_of answers) ->
  forallb not_proto (ids_of answers) = true ->
  Permutation (rankings (fst (pairwiseJudge answers orc))) (ids_of answers).
Proof.
  intros Hn Hp.
  destruct (Nat.le_gt_cases (List.length answers) 1) as [H1 | H1].
  - rewrite pairwiseJudge_trivial by assumption. apply Permutation_refl.
  - destruct (Nat.le_gt_cases (List.length answers) 3) as [H3 | H3].
    + rewrite pairwiseJudge_direct by lia. unfold directRank.
      destruct (directRank_try answers (orc 0)) as [j |] eqn:E.
      * now destruct (directRank_try_sound _ _ Hn E).
      * apply Permutation_refl.
    + rewrite pairwiseJudge_tournament by lia.
      now apply tournament_rankings_perm_ids.
Qed.

(** ** The comparison schedule *)

Section Schedule.

Variables f g : nat -> nat * nat.

Lemma pairs_length (l : list nat) :
  List.length (flat_map (fun i => [f i; g i]) l) = 2 * List.length l.
Proof. induction l as [| a l IH]; simpl; [reflexivity | rewrite IH; lia]. Qed.

Lemma pairs_nth (a m i : nat) :
  i < m ->
  nth_error (flat_map (fun i => [f i; g i]) (seq a m)) (2 * i) = Some (f (a + i))
  /\ nth_error (flat_map (fun i => [f i; g i]) (seq a m)) (2 * i + 1) = Some (g (a + i)).
Proof.
  revert a i. induction m as [| m IH]; intros a i Hi; [lia |].
  destruct i as [| i].
  - simpl. rewrite Nat.add_0_r. now split.
  - replace (2 * S i) with (S (S (2 * i))) by lia.
    replace (a + S i) with (S a + i) by lia.
    simpl seq. simpl flat_map. simpl nth_error.
    apply IH. lia.
Qed.

Lemma pairs_count (p : nat * nat -> bool) (l : list nat) :
  List.length (filter p (flat_map (fun i => [f i; g i]) l))
  = List.length (filter (fun i => p (f i)) l)
    + List.length (filter (fun i => p (g i)) l).
Proof.
  induction l as [| a l IH]; [reflexivity |].
  cbn [flat_map app filter].
  destruct (p (f a)), (p (g a)); cbn [List.length]; rewrite IH; lia.
Qed.

End Schedule.

Section Counting.

Lemma filter_none (p : nat -> bool) (l : list nat) :
  (forall j, In j l -> p j = false) -> filter p l = [].
Proof.
  induction l as [| a l IH]; intros H; simpl; [reflexivity |].
  rewrite (H a) by now left. apply IH. intros j Hj. apply H. now right.
Qed.

Lemma filter_unique (p : nat -> bool) (l : list nat) (j0 : nat) :
  NoDup l -> In j0 l ->
  (forall j, In j l -> (p j = true <-> j = j0)) ->
  filter p l = [j0].
Proof.
  induction 1 as [| a l Ha Hl IH]; intros Hin Hp; [contradiction |].
  simpl. destruct (Nat.eq_dec a j0) as [-> | Hne].
  - rewrite (proj2 (Hp j0 (or_introl eq_refl)) eq_refl).
    f_equal. apply filter_none. intros j Hj.
    destruct (p j) eqn:E; [| reflexivity].
    apply Hp in E; [congruence | now right].
  - destruct (p a) eqn:E.
    + apply Hp in E; [contradiction | now left].
    + destruct Hin as [-> | Hin]; [contradiction |].
      apply IH; [assumption |]. intros j Hj. apply Hp. now right.
Qed.

Lemma mod_wrap (a n : nat) :
  0 < n -> a < 2 * n -> a mod n = if (a <? n)%nat then a else a - n.
Proof.
  intros Hn Ha. destruct (Nat.ltb_spec a n).
  - now apply Nat.mod_small.
  - symmetry. apply (Nat.mod_unique a n 1); lia.
Qed.

(** Exactly one [j] below [n] is sent to [i] by the circular offset [k]. *)
Lemma offset_count (n k i : nat) :
  k < n -> i < n ->
  List.length (filter (fun j => ((j + k) mod n =? i)%nat) (seq 0 n)) = 1.
Proof.
  intros Hk Hi.
  rewrite (@filter_unique _ _ ((i + n - k) mod n)); [reflexivity | | |].
  - apply seq_NoDup.
  - apply in_seq. split; [lia |]. simpl. apply Nat.mod_upper_bound. lia.
  - intros j Hj. apply in_seq in Hj. rewrite Nat.eqb_eq.
    rewrite !mod_wrap by lia.
    destruct (Nat.ltb_spec (j + k) n), (Nat.ltb_spec (i + n - k) n); lia.
Qed.

Lemma left_count_schedule (n i : nat) :
  i < n -> left_count i (schedule n) = 2.
Proof.
  intros Hi. unfold left_count, schedule.
  rewrite (pairs_count (fun j => (j, (j + 1) mod n)) (fun j => (j, (j + 2) mod n))).
  cbn [fst].
  assert (E : filter (fun j => (j =? i)%nat) (seq 0 n) = [i]).
  { apply filter_unique; [apply seq_NoDup | apply in_seq; lia |].
    intros j _. apply Nat.eqb_eq. }
  now rewrite E.
Qed.

Lemma right_count_schedule (n i : nat) :
  3 <= n -> i < n -> right_count i (schedule n) = 2.
Proof.
  intros Hn Hi. unfold right_count, schedule.
  rewrite (pairs_count (fun j => (j, (j + 1) mod n)) (fun j => (j, (j + 2) mod n))).
  cbn [snd]. now rewrite !offset_count by lia.
Qed.

Lemma schedule_distinct (n : nat) (p : nat * nat) :
  3 <= n -> In p (schedule n) -> fst p <> snd p.
Proof.
  intros Hn Hp. unfold schedule in Hp. apply in_flat_map in Hp.
  destruct Hp as [i [Hi Hp]]. apply in_seq in Hi.
  destruct Hp as [<- | [<- | []]]; cbn [fst snd];
    rewrite mod_wrap by lia;
    match goal with |- context [(?a <? ?b)%nat] => destruct (Nat.ltb_spec a b) end;
    lia.
Qed.

End Counting.

(** ** Validation by the caller *)

Section Validation.

Variable answers : list AnswerEntry.

Lemma ranking_check_iff (rks : list string) :
  ranking_check answers rks = true
  <-> Permutation rks (JS.Set_of (ids_of answers)).
Proof.
  unfold ranking_check. rewrite andb_true_iff, Nat.eqb_eq, forallb_forall.
  pose proof (Set_of_NoDup (ids_of answers)) as Hs.
  split.
  - intros [Hlen Hall].
    assert (Hincl : incl (JS.Set_of (ids_of answers)) rks).
    { intros x Hx. apply Set_of_In, includes_In. now apply Hall. }
    apply NoDup_Permutation.
    + apply (NoDup_incl_NoDup Hs); [lia | assumption].
    + assumption.
    + intros x. split; [| apply Hincl].
      apply (NoDup_length_incl Hs); [lia | assumption].
  - intros P. split; [now apply Permutation_length |].
    intros x Hx. apply includes_In, Set_of_In.
    apply Permutation_sym in P. eapply Permutation_in; eassumption.
Qed.

Lemma good_check_iff (good : list string) :
  good_check answers good = true
  <-> Forall (fun x => In x (ids_of answers)) good.
Proof.
  unfold good_check. rewrite Forall_forall, negb_true_iff.
  split.
  - intros H x Hx. apply Set_of_In, includes_In.
    destruct (JS.includes (JS.Set_of (ids_of answers)) x) eqn:E; [reflexivity |].
    assert (Hex : existsb (fun i => negb (JS.includes (JS.Set_of (ids_of answers)) i)) good = true).
    { apply existsb_exists. exists x. now rewrite E. }
    congruence.
  - intros H.
    destruct (existsb _ good) eqn:E; [| reflexivity].
    apply existsb_exists in E. destruct E as [x [Hx Hb]].
    apply negb_true_iff, includes_false in Hb.
    exfalso. apply Hb, Set_of_In. now apply H.
Qed.

Lemma validate_cases (j : Judgement) :
  validate answers j
  = if ranking_check answers (rankings j) && good_check answers (goodAnswers j)
    then Some (mkVote (rankings j) (goodAnswers j)) else None.
Proof.
  unfold validate.
  destruct (ranking_check answers (rankings j)),
           (good_check answers (goodAnswers j)); reflexivity.
Qed.

End Validation.

(** ** Order of the standings *)

Section Standings.

Variable answers : list AnswerEntry.
Variable orc : oracle.

Lemma sort_insert_sorted (x : string * Z) (l : list (string * Z)) :
  StronglySorted (fun e e' => (snd e' <= snd e)%Z) l ->
  StronglySorted (fun e e' => (snd e' <= snd e)%Z) (JS.sort_insert by_wins_desc x l).
Proof.
  induction 1 as [| y l Hl IH Hy]; cbn [JS.sort_insert].
  - repeat constructor.
  - unfold by_wins_desc at 1. destruct (snd y - snd x >? 0)%Z eqn:E.
    + apply Z.gtb_lt in E. constructor; [exact IH |].
      apply (Permutation_Forall (Permutation_sym (sort_insert_perm by_wins_desc x l))).
      constructor; [lia | exact Hy].
    + assert (Hle : (snd y <= snd x)%Z).
      { destruct (Z.gtb_spec (snd y - snd x) 0); [discriminate | lia]. }
      constructor; [now constructor |].
      constructor; [exact Hle |].
      eapply Forall_impl; [| exact Hy]. intros z Hz. simpl in Hz. lia.
Qed.

(** The standings never put a candidate above one with more wins. *)
Lemma standings_sorted :
  StronglySorted (fun e e' => (snd e' <= snd e)%Z) (standings answers orc).
Proof.
  unfold standings, JS.sort.
  induction (JS.entries (winCounts (compare_all answers orc))) as [| x l IH];
    cbn [fold_right]; [constructor | now apply sort_insert_sorted].
Qed.

(** With plain identifiers, the tally lists the candidates in input order
    and candidates with the same number of wins keep that order in the
    standings. *)
Lemma standings_stable (c : Z) :
  NoDup (ids_of answers) ->
  forallb plain_key (ids_of answers) = true ->
  keys (winCounts (compare_all answers orc)) = ids_of answers
  /\ filter (fun e => (snd e =? c)%Z) (standings answers orc)
     = filter (fun e => (snd e =? c)%Z) (winCounts (compare_all answers orc)).
Proof.
  intros Hn Hp. destruct (plain_keys_split _ Hp) as [Hidx Hproto].
  assert (K : keys (winCounts (compare_all answers orc)) = ids_of answers).
  { unfold compare_all. rewrite keys_compare_loop. simpl.
    rewrite keys_init_tally by assumption. now apply filter_not_proto_id. }
  split; [exact K |].
  unfold standings. rewrite entries_plain by now rewrite K.
  apply sort_stable.
Qed.

End Standings.

(** ** Properties of the ranking round *)

Ltac distinct_ids :=
  repeat (constructor; [simpl; intuition congruence |]); constructor.

(** C1 (permutation invariant). The invariant is broken by the tally of the
    tournament: the identifier [__proto__] never becomes an own property of
    [winCounts], so it is missing from [Object.entries] and from the
    ranking. For the four distinct identifiers below and every oracle, the
    ranking misses [__proto__], is not a permutation of the input
    identifiers, and is rejected by the caller's validation. *)
Theorem proto_identifier_not_ranked :
  forall orc : oracle,
    let answers := map ans ["__proto__"; "a"; "b"; "c"] in
    let j := fst (pairwiseJudge answers orc) in
    NoDup (ids_of answers)
    /\ ~ In "__proto__" (rankings j)
    /\ ~ Permutation (rankings j) (ids_of answers)
    /\ validate answers j = None.
Proof.
  intros orc answers j.
  assert (Hn : NoDup (ids_of answers)) by (subst answers; simpl; distinct_ids).
  assert (P : Permutation (rankings j) ["a"; "b"; "c"]).
  { subst j. rewrite pairwiseJudge_tournament by (simpl; lia).
    apply (tournament_rankings_perm _ orc Hn). }
  assert (NP : ~ Permutation (rankings j) (ids_of answers)).
  { intros Q. apply Permutation_length in P, Q. rewrite P in Q. discriminate. }
  repeat split; try assumption.
  - intros Hin. apply (Permutation_in _ P) in Hin. simpl in Hin.
    intuition discriminate.
  - rewrite validate_cases.
    destruct (ranking_check answers (rankings j)) eqn:E; [| reflexivity].
    apply ranking_check_iff in E. rewrite (Set_of_distinct Hn) in E. contradiction.
Qed.

(** C2 (good-subset containment). For a non-empty list of answers with
    pairwise distinct identifiers and every oracle, the good list returned
    by [pairwiseJudge] is non-empty and holds input identifiers only. *)
Theorem good_subset_containment (answers : list AnswerEntry) (orc : oracle) :
  answers <> [] ->
  NoDup (ids_of answers) ->
  let j := fst (pairwiseJudge answers orc) in
  goodAnswers j <> []
  /\ forall x, In x (goodAnswers j) -> In x (ids_of answers).
Proof.
  intros Hne Hn j. subst j.
  destruct (Nat.le_gt_cases (List.length answers) 1) as [H1 | H1].
  - rewrite pairwiseJudge_trivial by assumption. simpl. split; [| tauto].
    destruct answers; [congruence | discriminate].
  - destruct (Nat.le_gt_cases (List.length answers) 3) as [H3 | H3].
    + rewrite pairwiseJudge_direct by lia. unfold directRank.
      destruct (directRank_try answers (orc 0)) as [j |] eqn:E; simpl.
      * destruct (directRank_try_sound _ _ Hn E) as [_ [Hin Hnon]].
        split; [now apply Hnon | exact Hin].
      * split; [| tauto]. destruct answers; [congruence | discriminate].
    + rewrite pairwiseJudge_tournament by lia.
      rewrite tournament_good.
      pose proof (tournament_rankings_length _ orc Hn) as Hlen.
      pose proof (tournament_rankings_perm _ orc Hn) as P.
      set (rks := rankings (fst (tournament answers orc))) in *.
      split.
      * pose proof (good_count_pos (List.length rks)) as Hg.
        destruct rks as [| r rks']; [simpl in Hlen; lia |].
        destruct (JS.good_count (List.length (r :: rks'))); [lia | discriminate].
      * intros x Hx. apply firstn_incl_list in Hx.
        apply (Permutation_in _ P) in Hx. apply filter_In in Hx. tauto.
Qed.

Lemma good_subset_containment_witness :
  let answers := map ans ["__proto__"; "7"; "c"; "d"] in
  let j := fst (pairwiseJudge answers (always (says "A"))) in
  answers <> [] /\ NoDup (ids_of answers)
  /\ goodAnswers j <> []
  /\ forall x, In x (goodAnswers j) -> In x (ids_of answers).
Proof.
  intros answers j.
  assert (Hne : answers <> []) by discriminate.
  assert (Hn : NoDup (ids_of answers)) by (subst answers; simpl; distinct_ids).
  split; [exact Hne | split; [exact Hn |]].
  exact (@good_subset_containment answers (always (says "A")) Hne Hn).
Defined.

(** C3, counterexample: four answers and an endpoint that is down. The
    tournament still cuts the good list to the top half. *)
Lemma fallback_as_stated_fails :
  ~ fallback_as_stated (map ans ["a"; "b"; "c"; "d"]) (always Rejected).
Proof.
  intros H.
  assert (Hn : NoDup (ids_of (map ans ["a"; "b"; "c"; "d"])))
    by (simpl; distinct_ids).
  destruct (H Hn (fun _ => eq_refl)) as [_ Hgood].
  vm_compute in Hgood. discriminate.
Qed.

(** C3 (fallback on total oracle failure), amended. With pairwise distinct
    identifiers and an oracle whose every call fails, [pairwiseJudge]
    returns a result: for at most three answers the ranking is the input
    order and the good list is the whole input; for four answers or more
    whose identifiers are plain keys, the ranking is the input order and
    the good list is its first ceil(n/2) identifiers. *)
Theorem fallback_on_total_failure (answers : list AnswerEntry) (orc : oracle) :
  NoDup (ids_of answers) ->
  total_failure orc ->
  let n := List.length answers in
  let j := fst (pairwiseJudge answers orc) in
  (n <= 3 -> rankings j = ids_of answers /\ goodAnswers j = ids_of answers)
  /\ (4 <= n -> forallb plain_key (ids_of answers) = true ->
      rankings j = ids_of answers
      /\ goodAnswers j = firstn (JS.ceil_half n) (ids_of answers)).
Proof.
  intros Hn Hf n j. subst n j. split.
  - intros H3.
    destruct (Nat.le_gt_cases (List.length answers) 1) as [H1 | H1].
    + rewrite pairwiseJudge_trivial by assumption. now split.
    + rewrite pairwiseJudge_direct by lia.
      unfold directRank, directRank_try. rewrite Hf. now split.
  - intros H4 Hp. rewrite pairwiseJudge_tournament by assumption.
    assert (Hr : rankings (fst (tournament answers orc)) = ids_of answers).
    { apply tournament_no_winner; try assumption.
      intros k. now rewrite Hf. }
    split; [exact Hr |].
    rewrite tournament_good, Hr. unfold ids_of. rewrite length_map.
    now rewrite good_count_ceil by lia.
Qed.

Lemma fallback_on_total_failure_witness :
  let answers := map ans ["a"; "b"; "c"; "d"; "e"] in
  let j := fst (pairwiseJudge answers (always Rejected)) in
  NoDup (ids_of answers) /\ total_failure (always Rejected)
  /\ 4 <= List.length answers
  /\ forallb plain_key (ids_of answers) = true
  /\ rankings j = ids_of answers
  /\ goodAnswers j = firstn (JS.ceil_half (List.length answers)) (ids_of answers).
Proof.
  intros answers j.
  assert (Hn : NoDup (ids_of answers)) by (subst answers; simpl; distinct_ids).
  assert (Hf : total_failure (always Rejected)) by (intros k; reflexivity).
  assert (H4 : 4 <= List.length answers) by (simpl; lia).
  assert (Hp : forallb plain_key (ids_of answers) = true) by reflexivity.
  repeat (split; [assumption |]).
  exact (proj2 (@fallback_on_total_failure answers (always Rejected) Hn Hf) H4 Hp).
Defined.

(** C4 (tie-break stability). The tally is a plain object, whose
    array-index keys are enumerated first, in numeric order: with the four
    distinct identifiers below and an oracle that declares every comparison
    a tie, the ranking is not the input order. *)
Theorem numeric_identifiers_reordered :
  let answers := map ans ["2"; "1"; "a"; "b"] in
  let j := fst (pairwiseJudge answers (always (says "tie"))) in
  NoDup (ids_of answers)
  /\ (forall k, verdict_of (always (says "tie") k) = NoWinner)
  /\ rankings j = ["1"; "2"; "a"; "b"]
  /\ rankings j <> ids_of answers.
Proof.
  intros answers j. split; [subst answers; simpl; distinct_ids |].
  split; [intros k; reflexivity |].
  split; [reflexivity | discriminate].
Qed.

(** C5 (validation by the caller). The check on the ranking holds exactly
    when the ranking is a permutation of the set of answer identifiers; the
    vote is posted, unchanged, exactly when moreover every good identifier
    belongs to that set; otherwise the round is skipped. *)
Theorem caller_validation (answers : list AnswerEntry) (j : Judgement) :
  let known := JS.Set_of (ids_of answers) in
  let accepted :=
    Permutation (rankings j) known
    /\ Forall (fun x => In x (ids_of answers)) (goodAnswers j) in
  (ranking_check answers (rankings j) = true <-> Permutation (rankings j) known)
  /\ (validate answers j = Some (mkVote (rankings j) (goodAnswers j)) <-> accepted)
  /\ (validate answers j = None <-> ~ accepted).
Proof.
  intros known accepted. subst known accepted.
  pose proof (ranking_check_iff answers (rankings j)) as Hr.
  pose proof (good_check_iff answers (goodAnswers j)) as Hg.
  split; [exact Hr |].
  rewrite validate_cases.
  destruct (ranking_check answers (rankings j)),
           (good_check answers (goodAnswers j)); simpl;
    (split; split; intros H; try discriminate; try reflexivity; intuition discriminate).
Qed.

(** C6 (comparison schedule). For four candidates or more the schedule is
    the interleaving of the pairs (i, i+1 mod n) and (i, i+2 mod n) for
    i = 0 .. n-1, 2n pairs in all; a pair of equal indices is skipped
    without an oracle call (and the schedule holds none); every index is
    the left member of exactly two pairs and the right member of exactly
    two pairs. *)
Theorem schedule_shape (n : nat) :
  4 <= n ->
  List.length (schedule n) = 2 * n
  /\ (forall i, i < n ->
        nth_error (schedule n) (2 * i) = Some (i, (i + 1) mod n)
        /\ nth_error (schedule n) (2 * i + 1) = Some (i, (i + 2) mod n))
  /\ (forall answers orc st i, compare_step answers orc st (i, i) = st)
  /\ (forall p, In p (schedule n) -> fst p <> snd p)
  /\ (forall i, i < n ->
        left_count i (schedule n) = 2 /\ right_count i (schedule n) = 2).
Proof.
  intros Hn. repeat split.
  - unfold schedule. rewrite pairs_length, length_seq. reflexivity.
  - now apply (pairs_nth (fun j => (j, (j + 1) mod n)) (fun j => (j, (j + 2) mod n)) 0).
  - now apply (pairs_nth (fun j => (j, (j + 1) mod n)) (fun j => (j, (j + 2) mod n)) 0).
  - intros answers orc st i. unfold compare_step. now rewrite Nat.eqb_refl.
  - intros p Hp. apply (@schedule_distinct n p); [lia | assumption].
  - now apply left_count_schedule.
  - apply right_count_schedule; lia.
Qed.

Lemma schedule_shape_witness :
  4 <= 5
  /\ List.length (schedule 5) = 2 * 5
  /\ (forall i, i < 5 ->
        nth_error (schedule 5) (2 * i) = Some (i, (i + 1) mod 5)
        /\ nth_error (schedule 5) (2 * i + 1) = Some (i, (i + 2) mod 5))
  /\ (forall answers orc st i, compare_step answers orc st (i, i) = st)
  /\ (forall p, In p (schedule 5) -> fst p <> snd p)
  /\ (forall i, i < 5 ->
        left_count i (schedule 5) = 2 /\ right_count i (schedule 5) = 2).
Proof.
  assert (H : 4 <= 5) by (do 1 constructor; constructor).
  split; [exact H | exact (schedule_shape H)].
Defined.

(** C7 (direct ranking of a structured response). With two or three
    answers of distinct identifiers and a response whose [answer_rankings]
    and [good_answers] are arrays: the ranking is the known identifiers of
    the returned ordering, each at its first occurrence, followed by the
    identifiers the ordering omitted, in input order; and when no good
    identifier is known, the good list is the top-ranked identifier
    alone. *)
Theorem direct_rank_structured
        (answers : list AnswerEntry) (orc : oracle)
        (fields : list (string * json)) (rs gs : list json) :
  2 <= List.length answers <= 3 ->
  NoDup (ids_of answers) ->
  orc 0 = Responded (Some (JObject fields)) ->
  JS.lookup "answer_rankings" fields = Some (JArray rs) ->
  JS.lookup "good_answers" fields = Some (JArray gs) ->
  let j := fst (pairwiseJudge answers orc) in
  rankings j
  = keep_first_occurrence (discard_unknown (ids_of answers) (strings_of rs))
    ++ omitted (ids_of answers) (strings_of rs)
  /\ (discard_unknown (ids_of answers) (strings_of gs) = [] ->
      exists top rest, rankings j = top :: rest /\ goodAnswers j = [top]).
Proof.
  intros Hlen Hn Ho Hr Hg j. subst j.
  rewrite pairwiseJudge_direct by assumption.
  unfold directRank, directRank_try. rewrite Ho.
  cbn [JS.member]. rewrite Hr, Hg.
  cbn [JS.or_empty JS.truthy JS.iterate JS.as_array].
  rewrite (Set_of_distinct Hn).
  fold (direct_final (ids_of answers) rs).
  rewrite (direct_final_spec rs Hn).
  cbn [fst rankings goodAnswers]. split; [reflexivity |].
  intros Hnone. rewrite filter_known_spec, Hnone.
  cbn [List.length Nat.ltb Nat.leb].
  destruct (spec_direct_ranking (ids_of answers) rs) as [| top rest] eqn:E.
  - exfalso. destruct answers as [| a answers]; [simpl in Hlen; lia |].
    assert (Hin : In (id a) (spec_direct_ranking (ids_of (a :: answers)) rs))
      by (apply spec_direct_ranking_In; now left).
    rewrite E in Hin. contradiction.
  - now exists top, rest.
Qed.

Lemma direct_rank_structured_witness :
  let answers := map ans ["a"; "b"; "c"] in
  let rs := [JString "c"; JString "x"; JString "c"; JNumber 7; JString "a"] in
  let gs := [JString "y"] in
  let fields := [("answer_rankings", JArray rs); ("good_answers", JArray gs)] in
  let orc := always (Responded (Some (JObject fields))) in
  let j := fst (pairwiseJudge answers orc) in
  rankings j = ["c"; "a"; "b"] /\ goodAnswers j = ["c"]
  /\ rankings j
     = keep_first_occurrence (discard_unknown (ids_of answers) (strings_of rs))
       ++ omitted (ids_of answers) (strings_of rs)
  /\ (discard_unknown (ids_of answers) (strings_of gs) = [] ->
      exists top rest, rankings j = top :: rest /\ goodAnswers j = [top]).
Proof.
  intros answers rs gs fields orc j.
  split; [reflexivity | split; [reflexivity |]].
  refine (@direct_rank_structured answers orc fields rs gs _ _ eq_refl eq_refl eq_refl).
  - split; repeat constructor.
  - subst answers; simpl; distinct_ids.
Defined.

(** In a tournament over identifiers none of which is [__proto__], the
    good list is the first max(1, ceil(n/2)) entries of the ranking. *)
Lemma tournament_good_top_half (answers : list AnswerEntry) (orc : oracle) :
  4 <= List.length answers ->
  NoDup (ids_of answers) ->
  forallb not_proto (ids_of answers) = true ->
  let j := fst (pairwiseJudge answers orc) in
  goodAnswers j = firstn (JS.good_count (List.length answers)) (rankings j).
Proof.
  intros H4 Hn Hp j. subst j. rewrite pairwiseJudge_tournament by assumption.
  rewrite tournament_good at 1.
  rewrite (Permutation_length (tournament_rankings_perm_ids _ orc Hn Hp)).
  unfold ids_of. now rewrite length_map.
Qed.

(** C8 (size of the good list in a tournament). The count is taken from
    the ranking, which misses the identifier [__proto__] (the defect of
    C1): with the five distinct identifiers below and every oracle, the
    good list has two members instead of ceil(5/2) = 3, so it is not the
    first three entries of the ranking. *)
Theorem proto_identifier_shrinks_good :
  forall orc : oracle,
    let answers := map ans ["__proto__"; "a"; "b"; "c"; "d"] in
    let j := fst (pairwiseJudge answers orc) in
    NoDup (ids_of answers)
    /\ JS.good_count (List.length answers) = 3
    /\ List.length (goodAnswers j) = 2
    /\ goodAnswers j <> firstn (JS.good_count (List.length answers)) (rankings j).
Proof.
  intros orc answers j.
  assert (Hn : NoDup (ids_of answers)) by (subst answers; simpl; distinct_ids).
  assert (L : List.length (rankings j) = 4).
  { subst j. rewrite pairwiseJudge_tournament by (simpl; lia).
    now rewrite (Permutation_length (tournament_rankings_perm _ orc Hn)). }
  assert (G : goodAnswers j
              = firstn (JS.good_count (List.length (rankings j))) (rankings j)).
  { subst j. rewrite pairwiseJudge_tournament by (simpl; lia).
    apply tournament_good. }
  assert (G2 : List.length (goodAnswers j) = 2).
  { rewrite G, L, length_firstn, L. reflexivity. }
  repeat split; try assumption; try reflexivity.
  intros E. apply (f_equal (@List.length string)) in E.
  rewrite G2, length_firstn, L in E. discriminate.
Qed.

(** C9 (trivial rounds). No answer: empty ranking and empty good list. One
    answer: both lists hold its identifier. Neither case calls the oracle
    (the second component counts the calls). *)
Theorem trivial_rounds (orc : oracle) (x : AnswerEntry) :
  pairwiseJudge [] orc = (mkJudgement [] [], 0)
  /\ pairwiseJudge [x] orc = (mkJudgement [id x] [id x], 0).
Proof. split; reflexivity. Qed.

(** C10 (duplicates in the good list). There is a direct ranking round,
    with a parseable response whose [good_answers] repeats a known
    identifier, whose good list holds that identifier twice and whose
    result passes the caller's validation and is posted as it is. *)
Theorem duplicate_good_submitted :
  exists (answers : list AnswerEntry) (orc : oracle) (rs gs : list json),
    let j := fst (pairwiseJudge answers orc) in
    NoDup (ids_of answers)
    /\ orc 0 = Responded (Some (JObject [("answer_rankings", JArray rs);
                                         ("good_answers", JArray gs)]))
    /\ gs = [JString "a"; JString "a"]
    /\ goodAnswers j = ["a"; "a"]
    /\ ~ NoDup (goodAnswers j)
    /\ validate answers j = Some (mkVote (rankings j) (goodAnswers j)).
Proof.
  exists (map ans ["a"; "b"]).
  exists (always (Responded (Some (JObject
            [("answer_rankings", JArray [JString "b"; JString "a"]);
             ("good_answers", JArray [JString "a"; JString "a"])])))).
  exists [JString "b"; JString "a"], [JString "a"; JString "a"].
  cbv zeta. repeat split; try reflexivity.
  - simpl; distinct_ids.
  - intros H. change (NoDup ["a"; "a"]) in H.
    inversion H as [| ? ? Hnot _]. apply Hnot. now left.
Qed.


(** ** Further properties of the ranking round *)

Section RoundFacts.

Lemma schedule_in_range (n : nat) (p : nat * nat) :
  In p (schedule n) -> fst p < n /\ snd p < n.
Proof.
  intros Hp. unfold schedule in Hp. apply in_flat_map in Hp.
  destruct Hp as [i [Hi Hp]]. apply in_seq in Hi.
  assert (Hn : n <> 0) by lia.
  destruct Hp as [<- | [<- | []]]; cbn [fst snd]; split; try lia;
    apply Nat.mod_upper_bound; exact Hn.
Qed.

(** A comparison between two different, existing answers always costs one
    oracle call, whatever the oracle replies. *)
Lemma compare_loop_calls answers orc sched st :
  (forall p, In p sched ->
     fst p <> snd p /\ fst p < List.length answers /\ snd p < List.length answers) ->
  calls (fold_left (compare_step answers orc) sched st)
  = calls st + List.length sched.
Proof.
  revert st. induction sched as [| p sched IH]; intros st Hs; simpl.
  - lia.
  - rewrite IH by (intros q Hq; apply Hs; now right).
    destruct (Hs p (or_introl eq_refl)) as [Hne [HA HB]].
    unfold compare_step. destruct p as [iA iB]. cbn [fst snd] in *.
    destruct (Nat.eqb_spec iA iB); [contradiction |].
    destruct (nth_error answers iA) eqn:EA;
      [| apply nth_error_None in EA; lia].
    destruct (nth_error answers iB) eqn:EB;
      [| apply nth_error_None in EB; lia].
    simpl. lia.
Qed.

Lemma keys_init_fold (answers : list AnswerEntry) (w : JS.object) :
  keys (fold_left (fun w a => JS.assign w (id a) 0%Z) answers w)
  = fold_left JS.Set_add (filter not_proto (ids_of answers)) (keys w).
Proof.
  revert w. induction answers as [| a answers IH]; intros w; simpl.
  - reflexivity.
  - rewrite IH, keys_assign. now destruct (not_proto (id a)).
Qed.

(** The own keys of the tally are the set of the identifiers other than
    [__proto__], repeated identifiers sharing one entry. *)
Lemma keys_init_tally_general (answers : list AnswerEntry) :
  keys (init_tally answers) = JS.Set_of (filter not_proto (ids_of answers)).
Proof. unfold init_tally. now rewrite keys_init_fold. Qed.

Lemma tournament_rankings_perm_general answers orc :
  Permutation (rankings (fst (tournament answers orc)))
              (JS.Set_of (filter not_proto (ids_of answers))).
Proof.
  rewrite tournament_rankings. unfold standings.
  rewrite sort_perm, entries_perm.
  fold (keys (winCounts (compare_all answers orc))).
  unfold compare_all. rewrite keys_compare_loop. simpl.
  now rewrite keys_init_tally_general.
Qed.

(** A response that [directRank] uses yields a permutation of the set of
    identifiers and a good list of known identifiers, even when answers
    share an identifier. *)
Lemma directRank_try_general (answers : list AnswerEntry) (r : reply) (j : Judgement) :
  directRank_try answers r = Some j ->
  Permutation (rankings j) (JS.Set_of (ids_of answers))
  /\ (forall x, In x (goodAnswers j) -> In x (ids_of answers)).
Proof.
  unfold directRank_try.
  destruct r as [| [parsed |]]; try discriminate.
  destruct (JS.member parsed "answer_rankings") as [ranked |]; try discriminate.
  destruct (JS.member parsed "good_answers") as [good |]; try discriminate.
  destruct (JS.iterate (JS.or_empty ranked)) as [items |]; try discriminate.
  destruct (JS.as_array (JS.or_empty good)) as [gitems |]; try discriminate.
  intros E. injection E as <-. cbn [rankings goodAnswers].
  fold (direct_final (JS.Set_of (ids_of answers)) items).
  pose proof (direct_final_perm items (Set_of_NoDup (ids_of answers))) as P.
  split; [exact P |].
  intros x Hx. apply Set_of_In.
  destruct (filter_known (JS.Set_of (ids_of answers)) gitems) as [| g gs] eqn:Eg;
    cbn [List.length Nat.ltb Nat.leb] in Hx.
  - destruct (direct_final (JS.Set_of (ids_of answers)) items) as [| y ys];
      [contradiction |].
    destruct Hx as [<- | []]. eapply Permutation_in; [exact P | now left].
  - rewrite <- Eg in Hx. now apply filter_known_In in Hx.
Qed.

Lemma pairwiseJudge_good_incl answers orc (x : string) :
  In x (goodAnswers (fst (pairwiseJudge answers orc))) -> In x (ids_of answers).
Proof.
  destruct (Nat.le_gt_cases (List.length answers) 1) as [H1 | H1].
  - rewrite pairwiseJudge_trivial by assumption. simpl. tauto.
  - destruct (Nat.le_gt_cases (List.length answers) 3) as [H3 | H3].
    + rewrite pairwiseJudge_direct by lia. unfold directRank.
      destruct (directRank_try answers (orc 0)) as [j |] eqn:E; simpl.
      * apply (directRank_try_general _ _ E).
      * tauto.
    + rewrite pairwiseJudge_tournament by lia. rewrite tournament_good.
      intros Hx. apply firstn_incl_list in Hx.
      apply (Permutation_in _ (tournament_rankings_perm_general answers orc)) in Hx.
      apply Set_of_In, filter_In in Hx. tauto.
Qed.

Lemma validate_accepts answers (j : Judgement) :
  Permutation (rankings j) (JS.Set_of (ids_of answers)) ->
  (forall x, In x (goodAnswers j) -> In x (ids_of answers)) ->
  validate answers j = Some (mkVote (rankings j) (goodAnswers j)).
Proof.
  intros P G. rewrite validate_cases.
  rewrite (proj2 (ranking_check_iff answers (rankings j)) P).
  rewrite (proj2 (good_check_iff answers (goodAnswers j))); [reflexivity |].
  now apply Forall_forall.
Qed.

(** *** Sum of the tally *)

Lemma total_app (o o' : JS.object) : total (o ++ o') = (total o + total o')%Z.
Proof.
  induction o as [| [k v] o IH]; simpl; [reflexivity | rewrite IH; lia].
Qed.

Lemma total_replace_own (o : JS.object) (k : string) (v w : Z) :
  JS.get_own o k = Some v ->
  total (JS.replace_own o k w) = (total o - v + w)%Z.
Proof.
  induction o as [| [k' v'] o IH]; simpl; [discriminate |].
  destruct (k' =? k); simpl.
  - intros E. injection E as ->. lia.
  - intros E. rewrite (IH E). lia.
Qed.

Lemma total_increment (o : JS.object) (k : string) :
  (total o <= total (JS.increment o k) <= total o + 1)%Z.
Proof.
  unfold JS.increment. destruct (k =? JS.proto_key) eqn:Ep; [lia |].
  destruct (JS.get_own o k) as [v |] eqn:Eg; [| lia].
  unfold JS.assign. rewrite Ep, (get_own_has_own _ _ Eg).
  rewrite (@total_replace_own o k v (v + 1)%Z Eg). lia.
Qed.

Lemma nonneg_replace_own (o : JS.object) (k : string) (w : Z) :
  (0 <= w)%Z ->
  Forall (fun e => (0 <= snd e)%Z) o ->
  Forall (fun e => (0 <= snd e)%Z) (JS.replace_own o k w).
Proof.
  intros Hw. induction 1 as [| [k' v'] o He Ho IH]; simpl; [constructor |].
  destruct (k' =? k); constructor; auto.
Qed.

Lemma get_own_In (o : JS.object) (k : string) (v : Z) :
  JS.get_own o k = Some v -> In (k, v) o.
Proof.
  induction o as [| [k' v'] o IH]; simpl; [discriminate |].
  destruct (String.eqb_spec k' k) as [-> |].
  - intros E. injection E as ->. now left.
  - intros E. right. now apply IH.
Qed.

Lemma nonneg_increment (o : JS.object) (k : string) :
  Forall (fun e => (0 <= snd e)%Z) o ->
  Forall (fun e => (0 <= snd e)%Z) (JS.increment o k).
Proof.
  intros H. unfold JS.increment. destruct (k =? JS.proto_key) eqn:Ep; [assumption |].
  destruct (JS.get_own o k) as [v |] eqn:Eg; [| assumption].
  unfold JS.assign. rewrite Ep, (get_own_has_own _ _ Eg).
  apply nonneg_replace_own; [| assumption].
  apply get_own_In in Eg. rewrite Forall_forall in H.
  specialize (H _ Eg). simpl in H. lia.
Qed.

Lemma compare_step_total answers orc st p :
  let st' := compare_step answers orc st p in
  (Forall (fun e => (0 <= snd e)%Z) (winCounts st) ->
   Forall (fun e => (0 <= snd e)%Z) (winCounts st'))
  /\ (total (winCounts st') - total (winCounts st)
      <= Z.of_nat (calls st') - Z.of_nat (calls st))%Z
  /\ calls st <= calls st'.
Proof.
  unfold compare_step. destruct p as [iA iB].
  destruct (iA =? iB)%nat; [repeat split; [tauto | lia | lia] |].
  destruct (nth_error answers iA) as [a |]; [| repeat split; [tauto | lia | lia]].
  destruct (nth_error answers iB) as [b |]; [| repeat split; [tauto | lia | lia]].
  cbn [winCounts calls].
  destruct (verdict_of (orc (calls st))); repeat split;
    try (intros H; now apply nonneg_increment); try tauto; try lia.
  - pose proof (total_increment (winCounts st) (id a)). lia.
  - pose proof (total_increment (winCounts st) (id b)). lia.
Qed.

Lemma compare_loop_total answers orc sched st :
  let st' := fold_left (compare_step answers orc) sched st in
  (Forall (fun e => (0 <= snd e)%Z) (winCounts st) ->
   Forall (fun e => (0 <= snd e)%Z) (winCounts st'))
  /\ (total (winCounts st') - total (winCounts st)
      <= Z.of_nat (calls st') - Z.of_nat (calls st))%Z
  /\ calls st <= calls st'.
Proof.
  revert st. induction sched as [| p sched IH]; intros st; simpl.
  - repeat split; [tauto | lia | lia].
  - destruct (IH (compare_step answers orc st p)) as [I1 [I2 I3]].
    destruct (compare_step_total answers orc st p) as [S1 [S2 S3]].
    cbv zeta in *. repeat split; [tauto | lia | lia].
Qed.

Lemma init_fold_zero (answers : list AnswerEntry) (w : JS.object) :
  Forall (fun e => snd e = 0%Z) w ->
  Forall (fun e => snd e = 0%Z)
         (fold_left (fun w a => JS.assign w (id a) 0%Z) answers w).
Proof.
  revert w. induction answers as [| a answers IH]; intros w Hw; simpl.
  - assumption.
  - apply IH. unfold JS.assign.
    destruct (id a =? JS.proto_key); [assumption |].
    destruct (JS.has_own w (id a)).
    + clear IH. induction Hw as [| [k' v'] w He Hw IHw]; simpl; [constructor |].
      destruct (k' =? id a); constructor; auto.
    + apply Forall_app. split; [assumption | now repeat constructor].
Qed.

Lemma total_zero (o : JS.object) :
  Forall (fun e => snd e = 0%Z) o -> total o = 0%Z.
Proof.
  induction 1 as [| [k v] o He Ho IH]; simpl in *; [reflexivity | lia].
Qed.

Lemma oracle_call_budget_aux answers orc :
  4 <= List.length answers ->
  calls (compare_all answers orc) = 2 * List.length answers.
Proof.
  intros H4. unfold compare_all. rewrite compare_loop_calls.
  - cbn [calls]. unfold schedule. rewrite pairs_length, length_seq. lia.
  - intros p Hp. split.
    + apply (@schedule_distinct (List.length answers) p); [lia | assumption].
    + now apply schedule_in_range.
Qed.

End RoundFacts.

(** X1 (oracle budget). A round calls the oracle never for at most one
    answer, once for two or three answers, and exactly 2n times for n >= 4
    answers, whatever the oracle replies (failed calls are counted). *)
Theorem oracle_call_budget (answers : list AnswerEntry) (orc : oracle) :
  snd (pairwiseJudge answers orc)
  = let n := List.length answers in
    if (n <=? 1)%nat then 0 else if (n <=? 3)%nat then 1 else 2 * n.
Proof.
  cbv zeta. unfold pairwiseJudge.
  destruct (Nat.leb_spec (List.length answers) 1); [reflexivity |].
  destruct (Nat.leb_spec (List.length answers) 3).
  - unfold directRank. now destruct (directRank_try answers (orc 0)).
  - unfold tournament. cbn [snd]. unfold compare_all.
    rewrite compare_loop_calls.
    + cbn [calls]. unfold schedule. rewrite pairs_length, length_seq. lia.
    + intros p Hp. split.
      * apply (@schedule_distinct (List.length answers) p); [lia | assumption].
      * now apply schedule_in_range.
Qed.

(** X2 (engine and caller agree). With pairwise distinct identifiers none
    of which is [__proto__], the result of [pairwiseJudge] always passes
    the validation of [processPendingChallenges] and is posted unchanged,
    whatever the oracle replies. *)
Theorem engine_result_accepted (answers : list AnswerEntry) (orc : oracle) :
  NoDup (ids_of answers) ->
  forallb not_proto (ids_of answers) = true ->
  let j := fst (pairwiseJudge answers orc) in
  validate answers j = Some (mkVote (rankings j) (goodAnswers j)).
Proof.
  intros Hn Hp j. subst j. apply validate_accepts.
  - rewrite (Set_of_distinct Hn). now apply pairwiseJudge_rankings_perm.
  - intros x. apply pairwiseJudge_good_incl.
Qed.

Lemma engine_result_accepted_witness :
  let answers := map ans ["3"; "1"; "b"; "a"; "2"] in
  let j := fst (pairwiseJudge answers (always (says "B"))) in
  NoDup (ids_of answers)
  /\ forallb not_proto (ids_of answers) = true
  /\ validate answers j = Some (mkVote (rankings j) (goodAnswers j)).
Proof.
  intros answers j.
  assert (Hn : NoDup (ids_of answers)) by (subst answers; simpl; distinct_ids).
  assert (Hp : forallb not_proto (ids_of answers) = true) by reflexivity.
  split; [exact Hn | split; [exact Hp |]].
  exact (@engine_result_accepted answers (always (says "B")) Hn Hp).
Defined.

(** X3 (repeated identifiers, fallback). When two of at most three answers
    share an identifier and the oracle call fails or its text is not JSON,
    the fallback ranking repeats that identifier and the caller skips the
    round. *)
Theorem repeated_ids_fallback_skipped (answers : list AnswerEntry) (orc : oracle) :
  ~ NoDup (ids_of answers) ->
  List.length answers <= 3 ->
  orc 0 = Rejected \/ orc 0 = Responded None ->
  let j := fst (pairwiseJudge answers orc) in
  rankings j = ids_of answers /\ validate answers j = None.
Proof.
  intros Hd H3 Ho j.
  assert (Ej : j = fallback answers).
  { subst j. destruct (Nat.le_gt_cases (List.length answers) 1) as [H1 | H1].
    - now rewrite pairwiseJudge_trivial.
    - rewrite pairwiseJudge_direct by lia. unfold directRank, directRank_try.
      now destruct Ho as [-> | ->]. }
  rewrite Ej. split; [reflexivity |].
  rewrite validate_cases.
  destruct (ranking_check answers (rankings (fallback answers))) eqn:E; [| reflexivity].
  apply ranking_check_iff in E. exfalso. apply Hd.
  apply (Permutation_NoDup (Permutation_sym E)). apply Set_of_NoDup.
Qed.

Lemma repeated_ids_fallback_skipped_witness :
  let answers := map ans ["a"; "b"; "a"] in
  let j := fst (pairwiseJudge answers (always Rejected)) in
  ~ NoDup (ids_of answers)
  /\ List.length answers <= 3
  /\ rankings j = ids_of answers /\ validate answers j = None.
Proof.
  intros answers j.
  assert (Hd : ~ NoDup (ids_of answers)).
  { intros H. inversion H as [| ? ? Hnot _]. apply Hnot. right. now left. }
  assert (H3 : List.length answers <= 3) by (simpl; lia).
  split; [exact Hd | split; [exact H3 |]].
  exact (@repeated_ids_fallback_skipped answers (always Rejected) Hd H3
           (or_introl eq_refl)).
Defined.

(** X4 (repeated identifiers, tournament). With four answers or more, none
    identified by [__proto__], the tally merges repeated identifiers: the
    ranking is a permutation of the set of identifiers and the result
    passes the caller's validation, whether or not identifiers repeat. *)
Theorem repeated_ids_tournament_accepted (answers : list AnswerEntry) (orc : oracle) :
  4 <= List.length answers ->
  forallb not_proto (ids_of answers) = true ->
  let j := fst (pairwiseJudge answers orc) in
  Permutation (rankings j) (JS.Set_of (ids_of answers))
  /\ validate answers j = Some (mkVote (rankings j) (goodAnswers j)).
Proof.
  intros H4 Hp j.
  assert (P : Permutation (rankings j) (JS.Set_of (ids_of answers))).
  { subst j. rewrite pairwiseJudge_tournament by assumption.
    rewrite <- (filter_not_proto_id _ Hp).
    apply tournament_rankings_perm_general. }
  split; [exact P |].
  apply validate_accepts; [exact P |].
  intros x. apply pairwiseJudge_good_incl.
Qed.

Lemma repeated_ids_tournament_accepted_witness :
  let answers := map ans ["a"; "b"; "a"; "c"; "b"] in
  let j := fst (pairwiseJudge answers (always (says "A"))) in
  4 <= List.length answers
  /\ forallb not_proto (ids_of answers) = true
  /\ Permutation (rankings j) (JS.Set_of (ids_of answers))
  /\ validate answers j = Some (mkVote (rankings j) (goodAnswers j)).
Proof.
  intros answers j.
  assert (H4 : 4 <= List.length answers) by (simpl; lia).
  assert (Hp : forallb not_proto (ids_of answers) = true) by reflexivity.
  split; [exact H4 | split; [exact Hp |]].
  exact (@repeated_ids_tournament_accepted answers (always (says "A")) H4 Hp).
Defined.

(** X5 (parseable response without a usable ranking). In direct mode, when
    the response parses to a value other than [null] whose
    [answer_rankings] and [good_answers] are both absent, falsy or empty
    arrays, the ranking is the input order and only the first answer is
    marked good (the fallback for a failed call marks them all). *)
Theorem direct_rank_unstructured
        (answers : list AnswerEntry) (orc : oracle) (parsed : json)
        (ranked good : option json) :
  2 <= List.length answers <= 3 ->
  NoDup (ids_of answers) ->
  orc 0 = Responded (Some parsed) ->
  JS.member parsed "answer_rankings" = Some ranked ->
  JS.member parsed "good_answers" = Some good ->
  JS.or_empty ranked = JArray [] ->
  JS.or_empty good = JArray [] ->
  let j := fst (pairwiseJudge answers orc) in
  rankings j = ids_of answers /\ goodAnswers j = firstn 1 (ids_of answers).
Proof.
  intros Hlen Hn Ho Hr Hg Er Eg j. subst j.
  rewrite pairwiseJudge_direct by assumption.
  unfold directRank, directRank_try. rewrite Ho, Hr, Hg, Er, Eg.
  cbn [JS.iterate JS.as_array fold_left filter_known List.length Nat.ltb Nat.leb].
  rewrite (Set_of_distinct Hn).
  rewrite complete_loop_spec by assumption. cbn [app JS.includes existsb negb].
  rewrite forallb_filter_id by (apply forallb_forall; reflexivity).
  cbn [fst rankings goodAnswers]. now split.
Qed.

Lemma direct_rank_unstructured_witness :
  let answers := map ans ["a"; "b"; "c"] in
  let orc := always (Responded (Some (JObject [("good_answers", JNull)]))) in
  let j := fst (pairwiseJudge answers orc) in
  rankings j = ["a"; "b"; "c"] /\ goodAnswers j = ["a"]
  /\ rankings j = ids_of answers /\ goodAnswers j = firstn 1 (ids_of answers).
Proof.
  intros answers orc j.
  split; [reflexivity | split; [reflexivity |]].
  refine (@direct_rank_unstructured answers orc
            (JObject [("good_answers", JNull)]) None (Some JNull)
            _ _ eq_refl eq_refl eq_refl eq_refl eq_refl).
  - split; repeat constructor.
  - subst answers; simpl; distinct_ids.
Defined.

(** X6 (ranking sorted by wins). In a tournament the ranking lists the
    entries of the final tally, each once, and never places an identifier
    above one with more wins. *)
Theorem tournament_ranking_sorted (answers : list AnswerEntry) (orc : oracle) :
  4 <= List.length answers ->
  let j := fst (pairwiseJudge answers orc) in
  rankings j = map fst (standings answers orc)
  /\ Permutation (standings answers orc) (winCounts (compare_all answers orc))
  /\ StronglySorted (fun e e' => (snd e' <= snd e)%Z) (standings answers orc).
Proof.
  intros H4 j. subst j. rewrite pairwiseJudge_tournament by assumption.
  split; [reflexivity |]. split.
  - unfold standings. now rewrite sort_perm, entries_perm.
  - apply standings_sorted.
Qed.

Lemma tournament_ranking_sorted_witness :
  let answers := map ans ["a"; "b"; "c"; "d"] in
  let orc := always (says "B") in
  let j := fst (pairwiseJudge answers orc) in
  4 <= List.length answers
  /\ rankings j = map fst (standings answers orc)
  /\ Permutation (standings answers orc) (winCounts (compare_all answers orc))
  /\ StronglySorted (fun e e' => (snd e' <= snd e)%Z) (standings answers orc).
Proof.
  intros answers orc j.
  assert (H4 : 4 <= List.length answers) by (simpl; lia).
  split; [exact H4 |].
  exact (@tournament_ranking_sorted answers orc H4).
Defined.

(** X7 (ties keep input order for plain identifiers). In a tournament over
    distinct identifiers that are neither array indices nor [__proto__],
    the tally lists the candidates in input order and, for every win count,
    the candidates having that count appear in the ranking in input
    order. *)
Theorem ties_keep_input_order (answers : list AnswerEntry) (orc : oracle) (c : Z) :
  4 <= List.length answers ->
  NoDup (ids_of answers) ->
  forallb plain_key (ids_of answers) = true ->
  let j := fst (pairwiseJudge answers orc) in
  let tally := winCounts (compare_all answers orc) in
  keys tally = ids_of answers
  /\ rankings j = map fst (standings answers orc)
  /\ filter (fun e => (snd e =? c)%Z) (standings answers orc)
     = filter (fun e => (snd e =? c)%Z) tally.
Proof.
  intros H4 Hn Hp j tally. subst j tally.
  rewrite pairwiseJudge_tournament by assumption.
  destruct (standings_stable answers orc c Hn Hp) as [K S].
  split; [exact K | split; [reflexivity | exact S]].
Qed.

Lemma ties_keep_input_order_witness :
  let answers := map ans ["d"; "c"; "b"; "a"] in
  let orc := always (says "A") in
  let j := fst (pairwiseJudge answers orc) in
  let tally := winCounts (compare_all answers orc) in
  4 <= List.length answers
  /\ NoDup (ids_of answers)
  /\ forallb plain_key (ids_of answers) = true
  /\ keys tally = ids_of answers
  /\ rankings j = map fst (standings answers orc)
  /\ filter (fun e => (snd e =? 2)%Z) (standings answers orc)
     = filter (fun e => (snd e =? 2)%Z) tally.
Proof.
  intros answers orc j tally.
  assert (H4 : 4 <= List.length answers) by (simpl; lia).
  assert (Hn : NoDup (ids_of answers)) by (subst answers; simpl; distinct_ids).
  assert (Hp : forallb plain_key (ids_of answers) = true) by reflexivity.
  split; [exact H4 | split; [exact Hn | split; [exact Hp |]]].
  exact (@ties_keep_input_order answers orc 2%Z H4 Hn Hp).
Defined.

(** X8 (win counts bounded by the comparisons). After the comparison loop
    of a tournament every win count is non-negative and the counts add up
    to at most the 2n comparisons made. *)
Theorem win_totals_bounded (answers : list AnswerEntry) (orc : oracle) :
  4 <= List.length answers ->
  let tally := winCounts (compare_all answers orc) in
  Forall (fun e => (0 <= snd e)%Z) tally
  /\ (total tally <= 2 * Z.of_nat (List.length answers))%Z.
Proof.
  intros H4 tally. subst tally.
  assert (Hz : Forall (fun e => snd e = 0%Z) (init_tally answers))
    by (apply init_fold_zero; constructor).
  pose proof (oracle_call_budget_aux answers orc H4) as Hc.
  unfold compare_all in *.
  destruct (compare_loop_total answers orc (schedule (List.length answers))
              (mkRound (init_tally answers) 0)) as [I1 [I2 _]].
  cbv zeta in *. cbn [winCounts calls] in *.
  split.
  - apply I1. eapply Forall_impl; [| exact Hz]. intros e He. simpl in He. lia.
  - rewrite (total_zero Hz) in I2. lia.
Qed.

Lemma win_totals_bounded_witness :
  let answers := map ans ["a"; "b"; "c"; "d"; "e"] in
  let tally := winCounts (compare_all answers (always (says "A"))) in
  4 <= List.length answers
  /\ total tally = 10%Z
  /\ Forall (fun e => (0 <= snd e)%Z) tally
  /\ (total tally <= 2 * Z.of_nat (List.length answers))%Z.
Proof.
  intros answers tally.
  assert (H4 : 4 <= List.length answers) by (simpl; lia).
  split; [exact H4 | split; [reflexivity |]].
  exact (@win_totals_bounded answers (always (says "A")) H4).
Defined.

(** ** The registration script *)

Section ParseChoice.

Import Register.

Lemma lower_char_idem (c : ascii) : lower_char (lower_char c) = lower_char c.
Proof. destruct c as [[] [] [] [] [] [] [] []]; reflexivity. Qed.

Lemma lower_char_space (c : ascii) : is_space (lower_char c) = is_space c.
Proof. destruct c as [[] [] [] [] [] [] [] []]; reflexivity. Qed.

Lemma lower_char_zero (c : ascii) : (lower_char c =? "0")%char = (c =? "0")%char.
Proof. destruct c as [[] [] [] [] [] [] [] []]; reflexivity. Qed.

Lemma lower_char_one (c : ascii) : (lower_char c =? "1")%char = (c =? "1")%char.
Proof. destruct c as [[] [] [] [] [] [] [] []]; reflexivity. Qed.

Lemma space_not_digit (c : ascii) :
  is_space c = true -> (c =? "0")%char = false /\ (c =? "1")%char = false.
Proof. destruct c as [[] [] [] [] [] [] [] []]; now intros H. Qed.

Lemma toLowerCase_app (a b : string) :
  toLowerCase (a ++ b) = (toLowerCase a ++ toLowerCase b)%string.
Proof. induction a as [| c a IH]; simpl; [reflexivity | now rewrite IH]. Qed.

Lemma toLowerCase_idem (s : string) : toLowerCase (toLowerCase s) = toLowerCase s.
Proof.
  induction s as [| c s IH]; simpl; [reflexivity |].
  now rewrite lower_char_idem, IH.
Qed.

Lemma all_space_lower (s : string) : all_space (toLowerCase s) = all_space s.
Proof.
  induction s as [| c s IH]; simpl; [reflexivity |].
  now rewrite lower_char_space, IH.
Qed.

Lemma trimStart_pad (pad s : string) :
  all_space pad = true -> trimStart (pad ++ s) = trimStart s.
Proof.
  induction pad as [| c pad IH]; simpl; [reflexivity |].
  intros H. apply andb_true_iff in H. destruct H as [Hc Hp].
  rewrite Hc. now apply IH.
Qed.

Lemma trimEnd_all_space (pad : string) : all_space pad = true -> trimEnd pad = "".
Proof.
  induction pad as [| c pad IH]; simpl; [reflexivity |].
  intros H. apply andb_true_iff in H. destruct H as [Hc Hp].
  now rewrite (IH Hp), Hc.
Qed.

Lemma trimEnd_pad (s pad : string) :
  all_space pad = true -> trimEnd (s ++ pad) = trimEnd s.
Proof.
  intros Hp. induction s as [| c s IH]; simpl.
  - now apply trimEnd_all_space.
  - now rewrite IH.
Qed.

Lemma trimStart_all_space (pad : string) :
  all_space pad = true -> trimStart pad = "".
Proof.
  induction pad as [| c pad IH]; simpl; [reflexivity |].
  intros H. apply andb_true_iff in H. destruct H as [Hc Hp].
  rewrite Hc. now apply IH.
Qed.

Lemma trim_pad_end (s pad : string) :
  all_space pad = true -> trim (s ++ pad) = trim s.
Proof.
  intros Hp. unfold trim. induction s as [| c s IH]; simpl.
  - now rewrite trimStart_all_space.
  - destruct (is_space c); [exact IH |].
    change (String c (s ++ pad)%string) with (String c s ++ pad)%string.
    now apply trimEnd_pad.
Qed.

Lemma trim_pad (pad s pad' : string) :
  all_space pad = true -> all_space pad' = true ->
  trim (pad ++ s ++ pad') = trim s.
Proof.
  intros Hp Hp'. unfold trim at 1. rewrite trimStart_pad by assumption.
  now apply trim_pad_end.
Qed.

Lemma first_digit_pad (pad s : string) :
  all_space pad = true -> first_binary_digit (pad ++ s) = first_binary_digit s.
Proof.
  induction pad as [| c pad IH]; simpl; [reflexivity |].
  intros H. apply andb_true_iff in H. destruct H as [Hc Hp].
  destruct (space_not_digit c Hc) as [-> ->]. now apply IH.
Qed.

Lemma first_digit_none (pad : string) :
  all_space pad = true -> first_binary_digit pad = None.
Proof.
  induction pad as [| c pad IH]; simpl; [reflexivity |].
  intros H. apply andb_true_iff in H. destruct H as [Hc Hp].
  destruct (space_not_digit c Hc) as [-> ->]. now apply IH.
Qed.

Lemma first_digit_pad_end (s pad : string) :
  all_space pad = true -> first_binary_digit (s ++ pad) = first_binary_digit s.
Proof.
  intros Hp. induction s as [| c s IH]; simpl.
  - now apply first_digit_none.
  - now rewrite IH.
Qed.

Lemma first_digit_lower (s : string) :
  first_binary_digit (toLowerCase s) = first_binary_digit s.
Proof.
  induction s as [| c s IH]; simpl; [reflexivity |].
  now rewrite lower_char_zero, lower_char_one, IH.
Qed.

Lemma first_digit_binary (s : string) (d : nat) :
  first_binary_digit s = Some d -> d <= 1.
Proof.
  induction s as [| c s IH]; simpl; [discriminate |].
  destruct (c =? "0")%char; [intros E; injection E as <-; lia |].
  destruct (c =? "1")%char; [intros E; injection E as <-; lia | exact IH].
Qed.

Lemma starts_same (c : ascii) (x : string) :
  startsWith (String c x) (String c "") = true.
Proof.
  unfold startsWith. simpl. destruct (ascii_dec c c); [| congruence].
  now destruct x.
Qed.

Lemma starts_diff (c d : ascii) (x : string) :
  c <> d -> startsWith (String c x) (String d "") = false.
Proof.
  intros H. unfold startsWith. simpl.
  destruct (ascii_dec d c); [congruence | reflexivity].
Qed.

Lemma parseChoice_binary (response : string) : parseChoice response <= 1.
Proof.
  unfold parseChoice.
  repeat match goal with
         | |- context [if ?b then _ else _] => destruct b; try lia
         end.
  destruct (first_binary_digit response) as [d |] eqn:E; [| lia].
  now apply first_digit_binary in E.
Qed.

End ParseChoice.

Section Evaluate.

Import Register.

Variable key : string.
Variable env : endpoint.

Lemma evaluate_step_spec (last : bool) (st : Evaluation) (c : Challenge) :
  let st' := evaluate_step key env last st c in
  exists d,
    d <= 1
    /\ answers st' = answers st ++ [mkChallengeAnswer (Register.id c) d]
    /\ requests st <= requests st' <= requests st + 2
    /\ (waited st <= waited st' <= waited st + 65000)%N.
Proof.
  unfold evaluate_step, askOllama.
  destruct (key =? "").
  - cbn [includes String.prefix orb]. exists 0.
    destruct last; cbn; repeat split; lia.
  - destruct (env (requests st)) as [message | response].
    + destruct (includes message "429").
      * destruct (env (S (requests st))) as [message' | response'].
        -- exists 0. destruct last; cbn; repeat split; lia.
        -- exists (parseChoice response'). cbn.
           repeat split; try lia. apply parseChoice_binary.
      * exists 0. destruct last; cbn; repeat split; lia.
    + exists (parseChoice response).
      destruct last; cbn; repeat split; try lia; apply parseChoice_binary.
Qed.

Lemma evaluate_loop_spec (challenges : list Challenge) (st : Evaluation) :
  let st' := evaluate_loop key env challenges st in
  exists l,
    answers st' = answers st ++ l
    /\ map challenge_id l = map Register.id challenges
    /\ Forall (fun a => choice a <= 1) l
    /\ requests st <= requests st' <= requests st + 2 * List.length challenges
    /\ (waited st <= waited st'
        <= waited st + 65000 * N.of_nat (List.length challenges))%N.
Proof.
  revert st. induction challenges as [| c rest IH]; intros st.
  - exists []. cbn. rewrite app_nil_r. repeat split; try lia. constructor.
  - cbn [evaluate_loop]. cbv zeta.
    set (last := match rest with [] => true | _ => false end).
    destruct (evaluate_step_spec last st c) as [d [Hd [Ha [Hr Hw]]]].
    destruct (IH (evaluate_step key env last st c)) as [l [La [Li [Lc [Lr Lw]]]]].
    cbv zeta in *.
    exists (mkChallengeAnswer (Register.id c) d :: l).
    rewrite La, Ha, <- app_assoc. cbn [app map List.length].
    repeat split; try lia.
    + now rewrite Li.
    + constructor; [exact Hd | exact Lc].
Qed.

End Evaluate.

Section EvaluateNoKey.

Import Register.

Variable env : endpoint.

Lemma missing_key_message : includes "ANTHROPIC_API_KEY missing" "429" = false.
Proof. vm_compute. reflexivity. Qed.

Lemma evaluate_step_no_key (last : bool) (st : Evaluation) (c : Challenge) :
  evaluate_step "" env last st c = between last (push st c 0 (requests st)).
Proof.
  unfold evaluate_step, askOllama. cbn [String.eqb].
  now rewrite missing_key_message.
Qed.

Lemma evaluate_loop_no_key (challenges : list Challenge) (st : Evaluation) :
  evaluate_loop "" env challenges st
  = mkEvaluation
      (answers st ++ map (fun c => mkChallengeAnswer (Register.id c) 0) challenges)
      (requests st)
      (waited st + 5000 * N.of_nat (pred (List.length challenges)))%N.
Proof.
  revert st. induction challenges as [| c rest IH]; intros st.
  - cbn. rewrite app_nil_r, N.add_0_r. now destruct st.
  - cbn [evaluate_loop]. rewrite IH, evaluate_step_no_key.
    destruct rest as [| c' rest]; cbn [between push pause answers requests waited
                                         map List.length pred].
    + rewrite <- app_assoc. cbn [app]. f_equal; lia.
    + rewrite <- app_assoc. cbn [app]. f_equal; lia.
Qed.

End EvaluateNoKey.

(** X9 (one answer per challenge). Whatever the model endpoint does,
    [evaluateWithOllama] returns exactly one answer for every challenge, in
    the order of the challenges and under their identifiers, and every
    choice is 0 or 1. *)
Theorem evaluate_answers_every_challenge
        (key : string) (env : Register.endpoint)
        (challenges : list Register.Challenge) :
  let r := Register.evaluateWithOllama key env challenges in
  map Register.challenge_id (Register.answers r) = map Register.id challenges
  /\ Forall (fun a => Register.choice a <= 1) (Register.answers r).
Proof.
  cbv zeta. unfold Register.evaluateWithOllama.
  destruct (evaluate_loop_spec key env challenges (Register.mkEvaluation [] 0 0%N))
    as [l [La [Li [Lc _]]]].
  cbv zeta in La. cbn [Register.answers app] in La. rewrite La. now split.
Qed.

(** X10 (request and waiting budget). For n challenges the evaluation
    sends at most 2n requests to the model endpoint (one retry after a
    rate-limit error) and spends at most 65 seconds per challenge in
    pauses. *)
Theorem evaluate_budget
        (key : string) (env : Register.endpoint)
        (challenges : list Register.Challenge) :
  let r := Register.evaluateWithOllama key env challenges in
  Register.requests r <= 2 * List.length challenges
  /\ (Register.waited r <= 65000 * N.of_nat (List.length challenges))%N.
Proof.
  cbv zeta. unfold Register.evaluateWithOllama.
  destruct (evaluate_loop_spec key env challenges (Register.mkEvaluation [] 0 0%N))
    as [l [_ [_ [_ [Lr Lw]]]]].
  cbv zeta in *. cbn [Register.requests Register.waited] in *. split; lia.
Qed.

(** X11 (no API key). With the empty API key the script ships with, no
    request is sent: every challenge is answered 0, and the only pauses are
    the 5 seconds between consecutive challenges. *)
Theorem evaluate_without_key
        (env : Register.endpoint) (challenges : list Register.Challenge) :
  Register.evaluateWithOllama "" env challenges
  = Register.mkEvaluation
      (map (fun c => Register.mkChallengeAnswer (Register.id c) 0) challenges)
      0
      (5000 * N.of_nat (pred (List.length challenges)))%N.
Proof.
  unfold Register.evaluateWithOllama. now rewrite evaluate_loop_no_key.
Qed.

(** X12 (a leading digit decides). A response whose first character after
    leading white space is 0 (resp. 1) is parsed as 0 (resp. 1), whatever
    follows. *)
Theorem parseChoice_leading_digit (pad rest : string) :
  Register.all_space pad = true ->
  Register.parseChoice (pad ++ String "0" rest) = 0
  /\ Register.parseChoice (pad ++ String "1" rest) = 1.
Proof.
  intros Hp.
  assert (Hl : Register.all_space (Register.toLowerCase pad) = true)
    by now rewrite all_space_lower.
  assert (E : forall c, Register.is_space c = false -> Register.lower_char c = c ->
              Register.trim (Register.toLowerCase (pad ++ String c rest))
              = String c (Register.trimEnd (Register.toLowerCase rest))).
  { intros c Hc Hlow. rewrite toLowerCase_app. unfold Register.trim.
    rewrite trimStart_pad by assumption.
    cbn [Register.toLowerCase Register.trimStart]. rewrite Hlow, Hc.
    cbn [Register.trimEnd]. rewrite Hc. now rewrite andb_false_r. }
  unfold Register.parseChoice. split.
  - rewrite (E "0"%char eq_refl eq_refl).
    now rewrite starts_same, orb_true_r.
  - rewrite (E "1"%char eq_refl eq_refl).
    rewrite (@starts_diff "1" "0") by discriminate.
    cbn [String.eqb Ascii.eqb Bool.eqb orb andb].
    now rewrite starts_same, orb_true_r.
Qed.

Lemma parseChoice_leading_digit_witness :
  Register.all_space "  " = true
  /\ Register.parseChoice ("  " ++ String "0" " is worse, option b") = 0
  /\ Register.parseChoice ("  " ++ String "1" " (option a is weaker)") = 1.
Proof.
  split; [reflexivity |].
  split.
  - exact (proj1 (@parseChoice_leading_digit "  " " is worse, option b" eq_refl)).
  - exact (proj2 (@parseChoice_leading_digit "  " " (option a is weaker)" eq_refl)).
Defined.

(** X13 (case and padding are ignored). White space around a response and
    the case of its letters do not change the parsed choice. *)
Theorem parseChoice_ignores_case_and_padding (pad response pad' : string) :
  Register.all_space pad = true ->
  Register.all_space pad' = true ->
  Register.parseChoice (pad ++ response ++ pad') = Register.parseChoice response
  /\ Register.parseChoice (Register.toLowerCase response)
     = Register.parseChoice response.
Proof.
  intros Hp Hp'. unfold Register.parseChoice. split.
  - rewrite !toLowerCase_app.
    rewrite trim_pad by now rewrite all_space_lower.
    rewrite first_digit_pad by assumption.
    now rewrite first_digit_pad_end by assumption.
  - now rewrite toLowerCase_idem, first_digit_lower.
Qed.

Lemma parseChoice_ignores_case_and_padding_witness :
  Register.all_space " " = true
  /\ Register.all_space "  " = true
  /\ Register.parseChoice (" " ++ "Option B" ++ "  ") = Register.parseChoice "Option B"
  /\ Register.parseChoice (Register.toLowerCase "Option B")
     = Register.parseChoice "Option B".
Proof.
  split; [reflexivity | split; [reflexivity |]].
  exact (@parseChoice_ignores_case_and_padding " " "Option B" "  " eq_refl eq_refl).
Defined.

(** ** The HTTP layer *)

Section ApiFacts.

Import Api.

Variable JSON_parse : string -> option json.
Variable env : Env.

Lemma store_tokens_frame (data : json) (w w' : World) :
  store_tokens env data w = Some w' ->
  trace w' = trace w /\ slept w' = slept w.
Proof.
  unfold store_tokens.
  destruct (JS.member data "tokens") as [[tokens |] |]; try discriminate.
  destruct (JS.member tokens "access_token"); try discriminate.
  destruct (JS.member tokens "refresh_token"); try discriminate.
  intros E. injection E as <-. now split.
Qed.

(** Reading the tokens either succeeds or leaves the world as it was. *)
Lemma accept_tokens_spec (body : payload) (w : World) :
  let (done, w') := accept_tokens JSON_parse env body w in
  trace w' = trace w /\ slept w' = slept w /\ (done = false -> w' = w).
Proof.
  unfold accept_tokens. destruct body as [text | message]; [| now repeat split].
  destruct (JSON_parse text) as [data |]; [| now repeat split].
  destruct (store_tokens env data w) as [w' |] eqn:E; [| now repeat split].
  destruct (store_tokens_frame _ _ E). repeat split; try assumption. discriminate.
Qed.

Lemma doLogin_spec (w : World) :
  let (done, w') := doLogin JSON_parse env w in
  trace w' = trace w ++ [Login]
  /\ slept w' = slept w
  /\ (done = false -> session w' = session w /\ ticks w' = ticks w).
Proof.
  unfold doLogin, fetch.
  destruct (net env (List.length (trace w))) as [message | status body].
  - now repeat split.
  - destruct (ok status); cbn [negb]; [| now repeat split].
    pose proof (accept_tokens_spec body
                  (mkWorld (session w) (trace w ++ [Login]) (slept w) (ticks w))) as H.
    destruct (accept_tokens JSON_parse env body _) as [done w'].
    destruct H as [Ht [Hs Hf]].
    split; [exact Ht |]. split; [exact Hs |].
    intros Hd. rewrite (Hf Hd). now split.
Qed.

Lemma doRefreshToken_spec (w : World) :
  let (done, w') := doRefreshToken JSON_parse env w in
  (trace w' = trace w \/ trace w' = trace w ++ [Refresh (refreshToken (session w))])
  /\ slept w' = slept w
  /\ (done = false -> session w' = session w /\ ticks w' = ticks w).
Proof.
  unfold doRefreshToken, fetch.
  destruct (truthy_token (refreshToken (session w))); cbn [negb];
    [| repeat split; now left].
  destruct (net env (List.length (trace w))) as [message | status body].
  - repeat split. now right.
  - destruct (ok status); cbn [negb]; [| repeat split; now right].
    pose proof (accept_tokens_spec body
                  (mkWorld (session w)
                           (trace w ++ [Refresh (refreshToken (session w))])
                           (slept w) (ticks w))) as H.
    destruct (accept_tokens JSON_parse env body _) as [done w'].
    destruct H as [Ht [Hs Hf]].
    split; [right; exact Ht |]. split; [exact Hs |].
    intros Hd. rewrite (Hf Hd). now split.
Qed.

Lemma loop_effect_step (method path : string) (authorization : token)
      (remaining attempt : nat) (w w3 : World) (out : ApiResult * World)
      (extra : list request) :
  trace w3 = trace w ++ ApiCall method path authorization :: extra ->
  List.length extra <= 2 ->
  Forall (fun q => is_api_call q = false) extra ->
  (slept w <= slept w3)%N ->
  (attempt + S remaining <= 13 -> (slept w3 <= slept w + 60000)%N) ->
  loop_effect method path authorization remaining (S attempt) w3 out ->
  loop_effect method path authorization (S remaining) attempt w out.
Proof.
  intros Ht Hl Hx Hs1 Hs2 [added [At [Ac [Al [Af [As1 [As2 Ar]]]]]]].
  exists (ApiCall method path authorization :: extra ++ added).
  assert (Hfx : filter is_api_call extra = []).
  { clear - Hx. induction Hx as [| q extra Hq _ IH]; simpl; [reflexivity |].
    now rewrite Hq. }
  repeat split.
  - rewrite At, Ht, <- app_assoc. reflexivity.
  - cbn [filter is_api_call List.length]. rewrite filter_app, Hfx. simpl. lia.
  - cbn [List.length]. rewrite length_app. lia.
  - constructor; [reflexivity |]. apply Forall_app. split; [| exact Af].
    eapply Forall_impl; [| exact Hx]. intros q Hq Hq'. congruence.
  - lia.
  - intros Hb. specialize (Hs2 Hb). assert (S attempt + remaining <= 13) by lia.
    specialize (As2 H). lia.
  - exact Ar.
Qed.

Lemma request_loop_effect (method path : string) (authorization : token)
      (remaining attempt : nat) (w : World) :
  loop_effect method path authorization remaining attempt w
              (request_loop JSON_parse env method path authorization
                            remaining attempt w).
Proof.
  revert attempt w. induction remaining as [| remaining IH]; intros attempt w.
  - exists []. cbn. rewrite app_nil_r.
    split; [reflexivity |]. split; [lia |]. split; [lia |].
    split; [constructor |]. split; [lia |]. split; [lia |].
    intros status detail E. injection E as <- _. now left.
  - cbn [request_loop]. unfold fetch at 1. cbv zeta.
    set (w1 := mkWorld (session w)
                       (trace w ++ [ApiCall method path authorization])
                       (slept w) (ticks w)).
    assert (Hnow : forall r : ApiResult,
               (forall status detail, r = Failure status detail ->
                  status = 0%N \/ (retried_status status = false /\ ok status = false)) ->
               loop_effect method path authorization (S remaining) attempt w (r, w1)).
    { intros r Hr. exists [ApiCall method path authorization]. cbn.
      split; [reflexivity |]. split; [lia |]. split; [lia |].
      split; [repeat constructor |]. split; [lia |]. split; [lia | exact Hr]. }
    assert (Hcaught : forall message,
               loop_effect method path authorization (S remaining) attempt w
                 (match remaining with
                  | 0 => (Failure 0 message, w1)
                  | S _ => request_loop JSON_parse env method path authorization
                             remaining (S attempt)
                             (sleep (5000 * N.of_nat attempt) w1)
                  end)).
    { intros message. destruct remaining as [| remaining'].
      - apply Hnow. intros status detail E. injection E as <- _. now left.
      - apply (@loop_effect_step _ _ _ _ _ _
                 (sleep (5000 * N.of_nat attempt) w1) _ []);
          [reflexivity | cbn; lia | constructor | unfold sleep, w1; cbn [slept]; lia
           | intros Hb; unfold sleep, w1; cbn [slept]; lia | apply IH]. }
    destruct (net env (List.length (trace w))) as [message | status body].
    + apply Hcaught.
    + destruct (N.eqb_spec status 401) as [E401 | N401].
      * pose proof (doRefreshToken_spec w1) as HR.
        destruct (doRefreshToken JSON_parse env w1) as [refreshed w2].
        destruct HR as [HRt [HRs _]].
        destruct refreshed.
        -- destruct HRt as [HRt | HRt].
           ++ apply (@loop_effect_step _ _ _ _ _ _ w2 _ []);
                [rewrite HRt; reflexivity | cbn; lia | constructor
                 | rewrite HRs; unfold w1; cbn [slept]; lia | intros Hb; rewrite HRs; unfold w1; cbn [slept]; lia
                 | apply IH].
           ++ apply (@loop_effect_step _ _ _ _ _ _ w2 _
                       [Refresh (refreshToken (session w1))]);
                [rewrite HRt; cbn; rewrite <- app_assoc; reflexivity
                 | cbn; lia | repeat constructor
                 | rewrite HRs; unfold w1; cbn [slept]; lia | intros Hb; rewrite HRs; unfold w1; cbn [slept]; lia
                 | apply IH].
        -- pose proof (doLogin_spec w2) as HL.
           destruct (doLogin JSON_parse env w2) as [logged w3].
           destruct HL as [HLt [HLs _]]. cbn [snd].
           destruct HRt as [HRt | HRt].
           ++ apply (@loop_effect_step _ _ _ _ _ _ w3 _ [Login]);
                [rewrite HLt, HRt; cbn; rewrite <- app_assoc; reflexivity
                 | cbn; lia | repeat constructor
                 | rewrite HLs, HRs; unfold w1; cbn [slept]; lia
                 | intros Hb; rewrite HLs, HRs; unfold w1; cbn [slept]; lia
                 | apply IH].
           ++ apply (@loop_effect_step _ _ _ _ _ _ w3 _
                       [Refresh (refreshToken (session w1)); Login]);
                [rewrite HLt, HRt; cbn; rewrite <- !app_assoc; reflexivity
                 | cbn; lia | repeat constructor
                 | rewrite HLs, HRs; unfold w1; cbn [slept]; lia
                 | intros Hb; rewrite HLs, HRs; unfold w1; cbn [slept]; lia
                 | apply IH].
      * destruct (N.eqb_spec status 429) as [E429 | N429].
        -- apply (@loop_effect_step _ _ _ _ _ _ (sleep 60000 w1) _ []);
             [reflexivity | cbn; lia | constructor
              | unfold sleep, w1; cbn [slept]; lia
              | intros Hb; unfold sleep, w1; cbn [slept]; lia | apply IH].
        -- destruct (N.leb_spec 500 status) as [G500 | L500].
           ++ apply (@loop_effect_step _ _ _ _ _ _ (sleep 30000 w1) _ []);
                [reflexivity | cbn; lia | constructor
                 | unfold sleep, w1; cbn [slept]; lia
                 | intros Hb; unfold sleep, w1; cbn [slept]; lia | apply IH].
           ++ destruct body as [text | message]; [| apply Hcaught].
              destruct (ok status) eqn:Eok; cbn [negb].
              ** destruct (text =? "").
                 --- apply Hnow. discriminate.
                 --- destruct (JSON_parse text); apply Hnow; discriminate.
              ** apply Hnow. intros status' detail E. injection E as <- _.
                 right. split; [| exact Eok]. unfold retried_status.
                 destruct (N.eqb_spec status 401); [contradiction |].
                 destruct (N.eqb_spec status 429); [contradiction |].
                 destruct (N.leb_spec 500 status); [lia | reflexivity].
Qed.

Lemma request_loop_exhausted (method path : string) (authorization : token)
      (remaining attempt : nat) (w : World) :
  (forall k, exists status body,
      net env k = Response status body /\ retried_status status = true) ->
  loop_exhausted remaining w
    (request_loop JSON_parse env method path authorization remaining attempt w).
Proof.
  intros Hnet. revert attempt w.
  induction remaining as [| remaining IH]; intros attempt w.
  - cbn. split; [reflexivity |]. exists []. cbn. now rewrite app_nil_r.
  - cbn [request_loop]. unfold fetch at 1. cbv zeta.
    set (w1 := mkWorld (session w)
                       (trace w ++ [ApiCall method path authorization])
                       (slept w) (ticks w)).
    assert (Hnext : forall w3 extra,
               trace w3 = trace w1 ++ extra ->
               filter is_api_call extra = [] ->
               loop_exhausted (S remaining) w
                 (request_loop JSON_parse env method path authorization
                               remaining (S attempt) w3)).
    { intros w3 extra Ht Hx.
      destruct (IH (S attempt) w3) as [Hr [added [At Ac]]].
      split; [exact Hr |].
      exists (ApiCall method path authorization :: extra ++ added).
      split.
      - rewrite At, Ht. unfold w1. cbn [trace].
        rewrite <- !app_assoc. reflexivity.
      - cbn [filter is_api_call List.length]. rewrite filter_app, Hx. simpl.
        now rewrite Ac. }
    destruct (Hnet (List.length (trace w))) as [status [body [-> Hs]]].
    unfold retried_status in Hs.
    destruct (N.eqb_spec status 401) as [E401 | N401].
    + pose proof (doRefreshToken_spec w1) as HR.
      destruct (doRefreshToken JSON_parse env w1) as [refreshed w2].
      destruct HR as [HRt _].
      destruct refreshed.
      * destruct HRt as [HRt | HRt].
        -- apply (Hnext w2 []); [now rewrite app_nil_r | reflexivity].
        -- apply (Hnext w2 [Refresh (refreshToken (session w1))]);
             [exact HRt | reflexivity].
      * pose proof (doLogin_spec w2) as HL.
        destruct (doLogin JSON_parse env w2) as [logged w3].
        destruct HL as [HLt _]. cbn [snd].
        destruct HRt as [HRt | HRt].
        -- apply (Hnext w3 [Login]); [now rewrite HLt, HRt | reflexivity].
        -- apply (Hnext w3 [Refresh (refreshToken (session w1)); Login]);
             [rewrite HLt, HRt, <- app_assoc; reflexivity | reflexivity].
    + destruct (N.eqb_spec status 429) as [E429 | N429].
      * apply (Hnext (sleep 60000 w1) []); [now rewrite app_nil_r | reflexivity].
      * destruct (N.leb_spec 500 status) as [G500 | L500]; [| discriminate].
        apply (Hnext (sleep 30000 w1) []); [now rewrite app_nil_r | reflexivity].
Qed.

Lemma ensureAuth_failure_spec (w : World) :
  let (done, w') := ensureAuth JSON_parse env w in
  done = false ->
  session w' = session w
  /\ (trace w' = trace w ++ [Login]
      \/ trace w' = trace w ++ [Refresh (refreshToken (session w)); Login]).
Proof.
  unfold ensureAuth.
  destruct (truthy_token (accessToken (session w))); cbn [negb].
  - cbv zeta.
    set (w1 := mkWorld (session w) (trace w) (slept w) (S (ticks w))).
    destruct (clock env (ticks w) - lastTokenTime (session w) >? TOKEN_REFRESH_MS)%Z;
      [| discriminate].
    pose proof (doRefreshToken_spec w1) as HR.
    destruct (doRefreshToken JSON_parse env w1) as [refreshed w2].
    destruct HR as [HRt [_ HRf]].
    destruct refreshed; [discriminate |].
    destruct (HRf eq_refl) as [HRsess _].
    pose proof (doLogin_spec w2) as HL.
    destruct (doLogin JSON_parse env w2) as [logged w3].
    destruct HL as [HLt [_ HLf]].
    intros ->. destruct (HLf eq_refl) as [HLsess _].
    split; [now rewrite HLsess, HRsess |].
    rewrite HLt. destruct HRt as [-> | ->]; [now left |].
    right. now rewrite <- app_assoc.
  - pose proof (doLogin_spec w) as HL.
    destruct (doLogin JSON_parse env w) as [logged w3].
    destruct HL as [HLt [_ HLf]].
    intros ->. destruct (HLf eq_refl) as [HLsess _].
    split; [exact HLsess | now left].
Qed.

End ApiFacts.

(** X14 (budget of one API call). With at most 12 retries, [apiRequest]
    sends at most [retries] requests of its own, at most three requests per
    attempt counting a token refresh and a login, and sleeps at most 60
    seconds per attempt. *)
Theorem apiRequest_budget
        (parse : string -> option json) (env : Api.Env)
        (method path : string) (retries : nat) (w : Api.World) :
  retries <= 12 ->
  let out := Api.apiRequest parse env method path retries w in
  exists added,
    Api.trace (snd out) = Api.trace w ++ added
    /\ List.length (filter Api.is_api_call added) <= retries
    /\ List.length added <= 3 * retries
    /\ (Api.slept w <= Api.slept (snd out)
        <= Api.slept w + 60000 * N.of_nat retries)%N.
Proof.
  intros Hr. cbv zeta. unfold Api.apiRequest.
  destruct (request_loop_effect parse env method path
              (Api.authorization_of (Api.session w)) retries 1 w)
    as [added [At [Ac [Al [_ [As1 [As2 _]]]]]]].
  exists added. repeat split; try assumption. apply As2. lia.
Qed.

Lemma apiRequest_budget_witness :
  let env := Api.scripted [Api.Response 503 (Api.Text "");
                           Api.Response 401 (Api.Text "");
                           Api.Response 200 (Api.Text "tokens");
                           Api.Response 200 (Api.Text "{}")] in
  let out := Api.apiRequest Api.parse_sample env "GET" "/queries/active"
                            Api.MAX_RETRIES Api.logged_in in
  Api.MAX_RETRIES <= 12
  /\ fst out = Api.Parsed (JObject [])
  /\ exists added,
       Api.trace (snd out) = Api.trace Api.logged_in ++ added
       /\ List.length (filter Api.is_api_call added) <= Api.MAX_RETRIES
       /\ List.length added <= 3 * Api.MAX_RETRIES
       /\ (Api.slept Api.logged_in <= Api.slept (snd out)
           <= Api.slept Api.logged_in + 60000 * N.of_nat Api.MAX_RETRIES)%N.
Proof.
  intros env out.
  assert (H : Api.MAX_RETRIES <= 12) by (unfold Api.MAX_RETRIES; lia).
  split; [exact H | split; [reflexivity |]].
  exact (@apiRequest_budget Api.parse_sample env "GET" "/queries/active"
           Api.MAX_RETRIES Api.logged_in H).
Defined.

(** X15 (the Authorization header is fixed at entry). Every request that
    one call of [apiRequest] sends for itself carries the method, the path
    and the authorization computed from the session when the call started,
    also after a 401 made it refresh the tokens in between. *)
Theorem apiRequest_authorization_fixed
        (parse : string -> option json) (env : Api.Env)
        (method path : string) (retries : nat) (w : Api.World) :
  let out := Api.apiRequest parse env method path retries w in
  exists added,
    Api.trace (snd out) = Api.trace w ++ added
    /\ Forall (fun q => Api.is_api_call q = true ->
                        q = Api.ApiCall method path
                                        (Api.authorization_of (Api.session w)))
              added.
Proof.
  cbv zeta. unfold Api.apiRequest.
  destruct (request_loop_effect parse env method path
              (Api.authorization_of (Api.session w)) retries 1 w)
    as [added [At [_ [_ [Af _]]]]].
  exists added. now split.
Qed.

Lemma apiRequest_authorization_fixed_witness :
  let env := Api.scripted [Api.Response 401 (Api.Text "");
                           Api.Response 200 (Api.Text "tokens");
                           Api.Response 200 (Api.Text "{}")] in
  let out := Api.apiRequest Api.parse_sample env "GET" "/queries/active" 3
                            Api.logged_in in
  Api.accessToken (Api.session (snd out)) = Some (JString "fresh")
  /\ Api.trace (snd out)
     = [Api.ApiCall "GET" "/queries/active" (Some (JString "old"));
        Api.Refresh (Some (JString "renew"));
        Api.ApiCall "GET" "/queries/active" (Some (JString "old"))]
  /\ exists added,
       Api.trace (snd out) = Api.trace Api.logged_in ++ added
       /\ Forall (fun q => Api.is_api_call q = true ->
                           q = Api.ApiCall "GET" "/queries/active"
                                 (Api.authorization_of (Api.session Api.logged_in)))
                 added.
Proof.
  intros env out.
  split; [reflexivity | split; [reflexivity |]].
  exact (@apiRequest_authorization_fixed Api.parse_sample env "GET"
           "/queries/active" 3 Api.logged_in).
Defined.

(** X16 (statuses reported to the caller). An error object built by
    [apiRequest] carries status 0 (network error or attempts exhausted) or
    a non-2xx status that is not retried: never 401, 429 or a 5xx. *)
Theorem apiRequest_failure_status
        (parse : string -> option json) (env : Api.Env)
        (method path : string) (retries : nat) (w : Api.World)
        (status : N) (detail : string) :
  fst (Api.apiRequest parse env method path retries w) = Api.Failure status detail ->
  status = 0%N
  \/ (status <> 401%N /\ status <> 429%N /\ (status < 500)%N /\ Api.ok status = false).
Proof.
  intros E. unfold Api.apiRequest in E.
  destruct (request_loop_effect parse env method path
              (Api.authorization_of (Api.session w)) retries 1 w)
    as [added [_ [_ [_ [_ [_ [_ Ar]]]]]]].
  destruct (Ar status detail E) as [-> | [Hr Hok]]; [now left | right].
  unfold Api.retried_status in Hr.
  destruct (N.eqb_spec status 401); [discriminate |].
  destruct (N.eqb_spec status 429); [discriminate |].
  destruct (N.leb_spec 500 status); [discriminate |].
  repeat split; assumption.
Qed.

Lemma apiRequest_failure_status_witness :
  let env := Api.scripted [Api.Response 500 (Api.Text "down");
                           Api.Response 404 (Api.Text "no such query")] in
  fst (Api.apiRequest Api.parse_sample env "GET" "/queries/7" 3 Api.fresh_world)
  = Api.Failure 404 "no such query"
  /\ (404%N = 0%N
      \/ (404%N <> 401%N /\ 404%N <> 429%N /\ (404 < 500)%N /\ Api.ok 404 = false)).
Proof.
  intros env.
  assert (E : fst (Api.apiRequest Api.parse_sample env "GET" "/queries/7" 3
                                  Api.fresh_world)
              = Api.Failure 404 "no such query") by reflexivity.
  split; [exact E |].
  exact (@apiRequest_failure_status Api.parse_sample env "GET" "/queries/7" 3
           Api.fresh_world 404%N "no such query" E).
Defined.

(** X17 (giving up). When every response has status 401, 429 or 5xx,
    [apiRequest] sends exactly [retries] requests of its own and returns the
    error object with status 0 and detail "Max retries exceeded". *)
Theorem apiRequest_gives_up
        (parse : string -> option json) (env : Api.Env)
        (method path : string) (retries : nat) (w : Api.World) :
  (forall k, exists status body,
      Api.net env k = Api.Response status body /\ Api.retried_status status = true) ->
  let out := Api.apiRequest parse env method path retries w in
  fst out = Api.Failure 0 "Max retries exceeded"
  /\ exists added,
       Api.trace (snd out) = Api.trace w ++ added
       /\ List.length (filter Api.is_api_call added) = retries.
Proof.
  intros Hnet. cbv zeta. unfold Api.apiRequest.
  exact (request_loop_exhausted parse env method path
           (Api.authorization_of (Api.session w)) retries 1 w Hnet).
Qed.

Lemma apiRequest_gives_up_witness :
  let env := Api.mkEnv (fun _ => Api.Response 503 (Api.Text "busy")) (fun _ => 0%Z) in
  let out := Api.apiRequest Api.parse_sample env "POST" "/rankings/votes" 3
                            Api.logged_in in
  (forall k, exists status body,
      Api.net env k = Api.Response status body /\ Api.retried_status status = true)
  /\ fst out = Api.Failure 0 "Max retries exceeded"
  /\ exists added,
       Api.trace (snd out) = Api.trace Api.logged_in ++ added
       /\ List.length (filter Api.is_api_call added) = 3.
Proof.
  intros env out.
  assert (H : forall k, exists status body,
             Api.net env k = Api.Response status body
             /\ Api.retried_status status = true).
  { intros k. exists 503%N, (Api.Text "busy"). now split. }
  split; [exact H |].
  exact (@apiRequest_gives_up Api.parse_sample env "POST" "/rankings/votes" 3
           Api.logged_in H).
Defined.

(** X18 (a failed login or refresh changes nothing). When [doLogin] or
    [doRefreshToken] returns false, the access token, the refresh token and
    the token time are what they were before the call. *)
Theorem failed_auth_keeps_session
        (parse : string -> option json) (env : Api.Env) (w : Api.World) :
  (fst (Api.doLogin parse env w) = false ->
   Api.session (snd (Api.doLogin parse env w)) = Api.session w)
  /\ (fst (Api.doRefreshToken parse env w) = false ->
      Api.session (snd (Api.doRefreshToken parse env w)) = Api.session w).
Proof.
  split.
  - pose proof (doLogin_spec parse env w) as H.
    destruct (Api.doLogin parse env w) as [done w'].
    destruct H as [_ [_ Hf]]. cbn [fst snd]. intros Hd. now destruct (Hf Hd).
  - pose proof (doRefreshToken_spec parse env w) as H.
    destruct (Api.doRefreshToken parse env w) as [done w'].
    destruct H as [_ [_ Hf]]. cbn [fst snd]. intros Hd. now destruct (Hf Hd).
Qed.

(** X19 (when ensureAuth fails). [ensureAuth] returns false only after a
    login request that failed, sent last and preceded by at most one
    refresh request; the session is then unchanged. *)
Theorem ensureAuth_failure
        (parse : string -> option json) (env : Api.Env) (w : Api.World) :
  fst (Api.ensureAuth parse env w) = false ->
  let w' := snd (Api.ensureAuth parse env w) in
  Api.session w' = Api.session w
  /\ (Api.trace w' = Api.trace w ++ [Api.Login]
      \/ Api.trace w'
         = Api.trace w ++ [Api.Refresh (Api.refreshToken (Api.session w)); Api.Login]).
Proof.
  pose proof (ensureAuth_failure_spec parse env w) as H.
  destruct (Api.ensureAuth parse env w) as [done w'].
  cbn [fst snd]. intros Hd. now apply H.
Qed.

Lemma ensureAuth_failure_witness :
  let env := Api.mkEnv (fun _ => Api.Response 403 (Api.Text "denied"))
                       (fun _ => 1000000%Z) in
  let w' := snd (Api.ensureAuth Api.parse_sample env Api.logged_in) in
  fst (Api.ensureAuth Api.parse_sample env Api.logged_in) = false
  /\ Api.session w' = Api.session Api.logged_in
  /\ (Api.trace w' = Api.trace Api.logged_in ++ [Api.Login]
      \/ Api.trace w'
         = Api.trace Api.logged_in
           ++ [Api.Refresh (Api.refreshToken (Api.session Api.logged_in)); Api.Login]).
Proof.
  intros env w'.
  assert (E : fst (Api.ensureAuth Api.parse_sample env Api.logged_in) = false)
    by reflexivity.
  split; [exact E |].
  exact (@ensureAuth_failure Api.parse_sample env Api.logged_in E).
Defined.

(** ** The configuration files *)

Section ConfigFacts.

Import Config.

Lemma lookup_absent (k : string) (o : props) :
  ~ In k (map fst o) -> JS.lookup k o = None.
Proof.
  induction o as [| [k' v'] o IH]; simpl; [reflexivity |].
  intros H. destruct (String.eqb_spec k' k) as [-> |]; [tauto |].
  apply IH. tauto.
Qed.

Lemma has_key_In (k : string) (o : props) :
  has_key k o = true <-> In k (map fst o).
Proof.
  induction o as [| [k' v'] o IH]; simpl; [split; [discriminate | tauto] |].
  rewrite orb_true_iff, IH, String.eqb_eq. tauto.
Qed.

Lemma lookup_replace (k k0 : string) (v : json) (o : props) :
  JS.lookup k (replace k0 v o)
  = if k0 =? k then (if has_key k0 o then Some v else None) else JS.lookup k o.
Proof.
  induction o as [| [k' v'] o IH]; simpl.
  - now destruct (k0 =? k).
  - destruct (String.eqb_spec k' k0) as [-> | Hne]; simpl.
    + now destruct (k0 =? k).
    + rewrite IH. destruct (String.eqb_spec k0 k) as [-> |]; [| reflexivity].
      destruct (String.eqb_spec k' k); [contradiction | reflexivity].
Qed.

Lemma lookup_app (k : string) (o o' : props) :
  JS.lookup k (o ++ o')
  = match JS.lookup k o with Some v => Some v | None => JS.lookup k o' end.
Proof.
  induction o as [| [k' v'] o IH]; simpl; [reflexivity |].
  now destruct (k' =? k).
Qed.

Lemma lookup_define (k : string) (o : props) (kv : string * json) :
  JS.lookup k (define o kv)
  = if fst kv =? k then Some (snd kv) else JS.lookup k o.
Proof.
  unfold define. destruct kv as [k0 v]. cbn [fst snd].
  destruct (has_key k0 o) eqn:E.
  - rewrite lookup_replace, E. reflexivity.
  - rewrite lookup_app. simpl.
    destruct (String.eqb_spec k0 k) as [-> |].
    + rewrite lookup_absent; [reflexivity |].
      intros Hin. apply has_key_In in Hin. congruence.
    + now destruct (JS.lookup k o).
Qed.

Lemma lookup_define_all (k : string) (l o : props) :
  distinct_keys l ->
  JS.lookup k (fold_left define l o)
  = match JS.lookup k l with Some v => Some v | None => JS.lookup k o end.
Proof.
  unfold distinct_keys. revert o.
  induction l as [| [k0 v0] l IH]; intros o Hn; simpl; [reflexivity |].
  simpl in Hn. inversion Hn as [| ? ? Hnot Hn']; subst.
  rewrite IH by assumption. rewrite lookup_define. cbn [fst snd].
  destruct (String.eqb_spec k0 k) as [-> |]; [| reflexivity].
  now rewrite lookup_absent.
Qed.

(** What a merged configuration answers for a key: the new value when
    [data] has the key, the existing one otherwise. *)
Lemma lookup_merge (k : string) (existing : json) (data : props) :
  distinct_keys (own_props existing) ->
  distinct_keys data ->
  JS.lookup k (merge existing data)
  = match JS.lookup k data with
    | Some v => Some v
    | None => JS.lookup k (own_props existing)
    end.
Proof.
  intros He Hd. unfold merge. rewrite lookup_define_all by assumption.
  destruct (JS.lookup k data); [reflexivity |].
  rewrite lookup_define_all by assumption.
  now destruct (JS.lookup k (own_props existing)).
Qed.

Lemma keys_replace (k : string) (v : json) (o : props) :
  map fst (replace k v o) = map fst o.
Proof.
  induction o as [| [k' v'] o IH]; simpl; [reflexivity |].
  destruct (k' =? k); simpl; [reflexivity | now rewrite IH].
Qed.

Lemma define_distinct (o : props) (kv : string * json) :
  distinct_keys o -> distinct_keys (define o kv).
Proof.
  unfold distinct_keys, define. intros Hn.
  destruct (has_key (fst kv) o) eqn:E.
  - now rewrite keys_replace.
  - rewrite map_app. simpl. apply NoDup_snoc; [assumption |].
    intros Hin. apply has_key_In in Hin. congruence.
Qed.

Lemma define_all_distinct (l o : props) :
  distinct_keys o -> distinct_keys (fold_left define l o).
Proof.
  revert o. induction l as [| kv l IH]; intros o Hn; simpl; [assumption |].
  apply IH. now apply define_distinct.
Qed.

(** A merged object lists every key once, whatever it was built from. *)
Lemma merge_distinct (existing : json) (data : props) :
  distinct_keys (merge existing data).
Proof.
  unfold merge. apply define_all_distinct, define_all_distinct. constructor.
Qed.

End ConfigFacts.

(** X20 (saveConfig merges). Unless [config.json] holds text that is not
    JSON, [saveConfig] succeeds, leaves [secret.json] alone, and the
    configuration read back by [loadConfig] answers every key of the new
    data with the new value and every other key as before. *)
Theorem saveConfig_merges (data : Config.props) (d : Config.Disk) :
  Config.config_file d <> Config.Garbage ->
  Config.distinct_keys (Config.own_props (Config.current d)) ->
  Config.distinct_keys data ->
  exists d' merged,
    Config.saveConfig data d = Some d'
    /\ Config.secret_file d' = Config.secret_file d
    /\ Config.loadConfig d' = Some (JObject merged)
    /\ forall k,
         JS.lookup k merged
         = match JS.lookup k data with
           | Some v => Some v
           | None => JS.lookup k (Config.own_props (Config.current d))
           end.
Proof.
  intros Hg He Hd. unfold Config.saveConfig, Config.current in *.
  destruct (Config.config_file d) as [| | existing]; [| contradiction |].
  - exists (Config.mkDisk (Config.Holds (JObject (Config.merge (JObject []) data)))
                          (Config.secret_file d)),
           (Config.merge (JObject []) data).
    repeat split. intros k. now apply lookup_merge.
  - exists (Config.mkDisk (Config.Holds (JObject (Config.merge existing data)))
                          (Config.secret_file d)),
           (Config.merge existing data).
    repeat split. intros k. now apply lookup_merge.
Qed.

Lemma saveConfig_merges_witness :
  let d := Config.mkDisk
             (Config.Holds (JObject [("agent_id", JString "a1");
                                     ("access_token", JString "t0")]))
             Config.Missing in
  let data := [("access_token", JString "t1"); ("refresh_token", JString "r1")] in
  Config.config_file d <> Config.Garbage
  /\ Config.distinct_keys (Config.own_props (Config.current d))
  /\ Config.distinct_keys data
  /\ exists d' merged,
       Config.saveConfig data d = Some d'
       /\ Config.secret_file d' = Config.secret_file d
       /\ Config.loadConfig d' = Some (JObject merged)
       /\ forall k,
            JS.lookup k merged
            = match JS.lookup k data with
              | Some v => Some v
              | None => JS.lookup k (Config.own_props (Config.current d))
              end.
Proof.
  intros d data.
  assert (Hg : Config.config_file d <> Config.Garbage) by discriminate.
  assert (He : Config.distinct_keys (Config.own_props (Config.current d)))
    by (unfold Config.distinct_keys; simpl; distinct_ids).
  assert (Hd : Config.distinct_keys data)
    by (unfold Config.distinct_keys; simpl; distinct_ids).
  split; [exact Hg | split; [exact He | split; [exact Hd |]]].
  exact (@saveConfig_merges data d Hg He Hd).
Defined.

(** X21 (a corrupt configuration blocks every write). When [config.json]
    holds text that is not JSON, [saveConfig] throws, and so do
    [saveCredentials], before it writes [secret.json], and [login], whatever
    the server answers. *)
Theorem corrupt_config_blocks_writes
        (data : Config.props) (agentId secret now : string)
        (reply : Config.login_reply) (d : Config.Disk) :
  Config.config_file d = Config.Garbage ->
  Config.saveConfig data d = None
  /\ Config.saveCredentials agentId secret now d = None
  /\ Config.login reply d = None
  /\ Config.loadConfig d = None.
Proof.
  intros Hg. unfold Config.saveCredentials, Config.login, Config.saveConfig,
    Config.loadConfig. rewrite Hg. repeat split.
  destruct reply as [| status [t |]]; try reflexivity;
    now destruct (negb (Api.ok status)).
Qed.

Lemma corrupt_config_blocks_writes_witness :
  let d := Config.mkDisk Config.Garbage Config.Missing in
  Config.config_file d = Config.Garbage
  /\ Config.saveConfig [("agent_id", JString "a")] d = None
  /\ Config.saveCredentials "a" "s" "2026-01-01T00:00:00.000Z" d = None
  /\ Config.login (Config.Answered 200 (Some (Config.mkTokens "t" "r"))) d = None
  /\ Config.loadConfig d = None.
Proof.
  intros d. split; [reflexivity |].
  exact (@corrupt_config_blocks_writes [("agent_id", JString "a")] "a" "s"
           "2026-01-01T00:00:00.000Z"
           (Config.Answered 200 (Some (Config.mkTokens "t" "r"))) d eq_refl).
Defined.

(** X22 (credentials, then login). On a configuration that is absent or
    holds JSON, [saveCredentials] followed by a successful [login] leaves
    the agent identifier and the tokens of the response in [config.json],
    the identifier and the secret in [secret.json], and keeps every
    configuration key that neither of them writes. *)
Theorem credentials_then_login
        (agentId secret now : string) (status : N) (t : Config.Tokens)
        (d : Config.Disk) :
  Config.config_file d <> Config.Garbage ->
  Config.distinct_keys (Config.own_props (Config.current d)) ->
  Api.ok status = true ->
  exists d1 d2,
    Config.saveCredentials agentId secret now d = Some d1
    /\ Config.login (Config.Answered status (Some t)) d1 = Some (t, d2)
    /\ Config.stored "agent_id" (Config.config_file d2) = Some (JString agentId)
    /\ Config.stored "access_token" (Config.config_file d2)
       = Some (JString (Config.access_token t))
    /\ Config.stored "refresh_token" (Config.config_file d2)
       = Some (JString (Config.refresh_token t))
    /\ Config.stored "agent_id" (Config.secret_file d2) = Some (JString agentId)
    /\ Config.stored "secret" (Config.secret_file d2) = Some (JString secret)
    /\ forall k,
         JS.lookup k (Config.credentials agentId now) = None ->
         k <> "access_token" -> k <> "refresh_token" ->
         Config.stored k (Config.config_file d2)
         = JS.lookup k (Config.own_props (Config.current d)).
Proof.
  intros Hg He Hok.
  assert (Hc : Config.distinct_keys (Config.credentials agentId now))
    by (unfold Config.distinct_keys; simpl; distinct_ids).
  assert (Ht : Config.distinct_keys
                 [("access_token", JString (Config.access_token t));
                  ("refresh_token", JString (Config.refresh_token t))])
    by (unfold Config.distinct_keys; simpl; distinct_ids).
  set (m1 := Config.merge (Config.current d) (Config.credentials agentId now)).
  set (m2 := Config.merge (JObject m1)
               [("access_token", JString (Config.access_token t));
                ("refresh_token", JString (Config.refresh_token t))]).
  exists (Config.mkDisk (Config.Holds (JObject m1))
            (Config.Holds (JObject [("agent_id", JString agentId);
                                    ("secret", JString secret)]))),
         (Config.mkDisk (Config.Holds (JObject m2))
            (Config.Holds (JObject [("agent_id", JString agentId);
                                    ("secret", JString secret)]))).
  assert (L2 : forall k, JS.lookup k m2
               = match JS.lookup k [("access_token", JString (Config.access_token t));
                                    ("refresh_token", JString (Config.refresh_token t))]
                 with
                 | Some v => Some v
                 | None => JS.lookup k m1
                 end).
  { intros k. unfold m2. apply lookup_merge; [| exact Ht].
    cbn [Config.own_props]. apply merge_distinct. }
  assert (L1 : forall k, JS.lookup k m1
               = match JS.lookup k (Config.credentials agentId now) with
                 | Some v => Some v
                 | None => JS.lookup k (Config.own_props (Config.current d))
                 end).
  { intros k. unfold m1. now apply lookup_merge. }
  split.
  { unfold Config.saveCredentials, Config.saveConfig, Config.current in *.
    destruct (Config.config_file d); [reflexivity | contradiction | reflexivity]. }
  split.
  { unfold Config.login. rewrite Hok. reflexivity. }
  cbn [Config.stored Config.config_file Config.secret_file].
  repeat split; try reflexivity.
  - rewrite L2, L1. reflexivity.
  - rewrite L2. reflexivity.
  - rewrite L2. reflexivity.
  - intros k Hk Ha Hr. rewrite L2. cbn [JS.lookup].
    destruct (String.eqb_spec "access_token" k); [congruence |].
    destruct (String.eqb_spec "refresh_token" k); [congruence |].
    now rewrite L1, Hk.
Qed.

Lemma credentials_then_login_witness :
  let d := Config.mkDisk
             (Config.Holds (JObject [("agent_id", JString "old-agent");
                                     ("access_token", JString "old-token");
                                     ("notes", JString "mine")]))
             Config.Missing in
  let t := Config.mkTokens "t1" "r1" in
  Config.config_file d <> Config.Garbage
  /\ Config.distinct_keys (Config.own_props (Config.current d))
  /\ Api.ok 200 = true
  /\ exists d1 d2,
       Config.saveCredentials "new-agent" "s3cret" "2026-01-01T00:00:00.000Z" d = Some d1
       /\ Config.login (Config.Answered 200 (Some t)) d1 = Some (t, d2)
       /\ Config.stored "agent_id" (Config.config_file d2) = Some (JString "new-agent")
       /\ Config.stored "access_token" (Config.config_file d2)
          = Some (JString (Config.access_token t))
       /\ Config.stored "refresh_token" (Config.config_file d2)
          = Some (JString (Config.refresh_token t))
       /\ Config.stored "agent_id" (Config.secret_file d2) = Some (JString "new-agent")
       /\ Config.stored "secret" (Config.secret_file d2) = Some (JString "s3cret")
       /\ forall k,
            JS.lookup k (Config.credentials "new-agent" "2026-01-01T00:00:00.000Z") = None ->
            k <> "access_token" -> k <> "refresh_token" ->
            Config.stored k (Config.config_file d2)
            = JS.lookup k (Config.own_props (Config.current d)).
Proof.
  intros d t.
  assert (Hg : Config.config_file d <> Config.Garbage) by discriminate.
  assert (He : Config.distinct_keys (Config.own_props (Config.current d)))
    by (unfold Config.distinct_keys; simpl; distinct_ids).
  split; [exact Hg | split; [exact He | split; [reflexivity |]]].
  exact (@credentials_then_login "new-agent" "s3cret" "2026-01-01T00:00:00.000Z"
           200%N t d Hg He eq_refl).
Defined.

(** ** The registration loop *)

Section SignupFacts.

Import Signup.

Variable key : string.
Variable envs : nat -> Attempt.

Lemma startRegistration_valid (r : reply RegistrationResponse)
      (reg : RegistrationResponse) :
  startRegistration r = Some reg ->
  challenge_session_id reg <> "" /\ challenges reg <> [].
Proof.
  unfold startRegistration. destruct r as [| status [data |]]; try discriminate;
    destruct (negb (Api.ok status)); try discriminate.
  destruct (String.eqb_spec (challenge_session_id data) ""); [discriminate |].
  destruct (challenges data) eqn:E; [discriminate |].
  cbn [orb List.length Nat.eqb]. intros H. injection H as <-.
  split; [assumption | congruence].
Qed.





(** One attempt: the requests it adds to the run. *)
Lemma attempt_body_posts (e : Attempt) (st : Run) :
  let st' := state_after (attempt_body key e st) in
  started st' = S (started st)
  /\ exists extra,
       posted st' = posted st ++ extra
       /\ List.length extra <= 1
       /\ Forall well_formed_post extra.
Proof.
  cbv zeta. unfold attempt_body.
  assert (Hnil : forall ps : list (RegistrationResponse * list Register.ChallengeAnswer),
             exists extra, ps = ps ++ extra /\ List.length extra <= 1
                           /\ Forall well_formed_post extra).
  { intros ps. exists []. rewrite app_nil_r. repeat split; [cbn; lia | constructor]. }
  destruct (startRegistration (register e)) as [reg |] eqn:Er;
    [| cbn; split; [reflexivity | apply Hnil]].
  destruct (startRegistration_valid _ Er) as [Hsid Hch].
  destruct (evaluate_loop_spec key (model e) (challenges reg)
              (Register.mkEvaluation [] 0 0%N)) as [l [La [Li [Lc _]]]].
  cbv zeta in La. cbn [Register.answers app] in La.
  fold (Register.evaluateWithOllama key (model e) (challenges reg)) in La.
  assert (Hone : forall ps : list (RegistrationResponse * list Register.ChallengeAnswer),
             exists extra,
               ps ++ [(reg, Register.answers
                              (Register.evaluateWithOllama key (model e)
                                                           (challenges reg)))]
               = ps ++ extra
               /\ List.length extra <= 1 /\ Forall well_formed_post extra).
  { intros ps. eexists. split; [reflexivity |]. split; [cbn; lia |].
    constructor; [| constructor]. unfold well_formed_post. cbn [fst snd].
    rewrite La. tauto. }
  destruct (submitResponses (complete e)) as [result |];
    [| cbn; split; [reflexivity | apply Hone]].
  destruct (passed result); [| cbn; split; [reflexivity | apply Hone]].
  cbn [disk].
  destruct (Config.saveCredentials (agent_id result) (secret result) (today e)
                                   (disk st)) as [d1 |];
    [| cbn; split; [reflexivity | apply Hone]].
  destruct (Config.login (signin e) d1) as [[t d2] |];
    cbn; (split; [reflexivity | apply Hone]).
Qed.


Lemma attempts_step (remaining attempt : nat) (st : Run) :
  attempts key envs (S remaining) attempt st
  = match attempt_body key (envs attempt) st with
    | inr (agent, st') => (Registered agent, st')
    | inl (thrown, st') =>
        attempts key envs remaining (S attempt)
          (if thrown
           then match remaining with 0 => st' | S _ => wait 3000 st' end
           else st')
    end.
Proof. reflexivity. Qed.

Lemma attempts_posts (remaining attempt : nat) (st : Run) :
  let out := attempts key envs remaining attempt st in
  started st <= started (snd out) <= started st + remaining
  /\ (fst out = GaveUp -> started (snd out) = started st + remaining)
  /\ exists extra,
       posted (snd out) = posted st ++ extra
       /\ List.length extra <= started (snd out) - started st
       /\ Forall well_formed_post extra.
Proof.
  cbv zeta. revert attempt st.
  induction remaining as [| remaining IH]; intros attempt st.
  - cbn. split; [lia |]. split; [intros _; lia |].
    exists []. rewrite app_nil_r. repeat split; [cbn; lia | constructor].
  - rewrite attempts_step.
    destruct (attempt_body_posts (envs attempt) st) as [Hs [extra [Hp [Hl Hf]]]].
    cbv zeta in *.
    destruct (attempt_body key (envs attempt) st) as [[thrown st'] | [agent st']];
      cbn [state_after] in *.
    + set (st'' := if thrown
                   then match remaining with 0 => st' | S _ => wait 3000 st' end
                   else st').
      assert (Hsame : started st'' = started st' /\ posted st'' = posted st').
      { unfold st''. destruct thrown; [destruct remaining |]; now split. }
      destruct Hsame as [E2 E3].
      destruct (IH (S attempt) st'') as [Is [Ig [extra' [Ip [Il If]]]]].
      rewrite E2, Hs in *. rewrite E3, Hp in Ip.
      split; [lia |]. split; [intros G; rewrite (Ig G); lia |].
      exists (extra ++ extra'). rewrite Ip, <- app_assoc.
      split; [reflexivity |]. split; [rewrite length_app; lia |].
      apply Forall_app. now split.
    + cbn [fst snd]. split; [lia |]. split; [discriminate |].
      exists extra. repeat split; [assumption | lia | assumption].
Qed.


End SignupFacts.

(** X23 (at most three registrations). The registration loop requests at
    most three registrations and submits answers at most once per
    registration; when it gives up (exit code 1) it has requested exactly
    three. *)
Theorem registration_attempt_bound
        (key : string) (envs : nat -> Signup.Attempt) (d : Config.Disk) :
  let out := Signup.registration_loop key envs d in
  Signup.started (snd out) <= 3
  /\ List.length (Signup.posted (snd out)) <= Signup.started (snd out)
  /\ (fst out = Signup.GaveUp -> Signup.started (snd out) = 3).
Proof.
  cbv zeta. unfold Signup.registration_loop.
  destruct (attempts_posts key envs Signup.MAX_RETRIES 1 (Signup.mkRun d 0 [] 0))
    as [Hs [Hg [extra [Hp [Hl _]]]]].
  cbv zeta in *. cbn [Signup.started Signup.posted app] in *.
  rewrite Hp. unfold Signup.MAX_RETRIES in *. repeat split; try lia.
  intros G. now rewrite (Hg G).
Qed.



(** X25 (what is submitted). Every set of answers the loop submits answers
    a registration with a session identifier and at least one challenge,
    holds one answer per challenge, in order and under its identifier, and
    every choice is 0 or 1. *)
Theorem submitted_answers_cover_challenges
        (key : string) (envs : nat -> Signup.Attempt) (d : Config.Disk) :
  Forall (fun p =>
            Signup.challenge_session_id (fst p) <> ""
            /\ Signup.challenges (fst p) <> []
            /\ map Register.challenge_id (snd p)
               = map Register.id (Signup.challenges (fst p))
            /\ Forall (fun a => Register.choice a <= 1) (snd p))
         (Signup.posted (snd (Signup.registration_loop key envs d))).
Proof.
  unfold Signup.registration_loop.
  destruct (attempts_posts key envs Signup.MAX_RETRIES 1 (Signup.mkRun d 0 [] 0))
    as [_ [_ [extra [Hp [_ Hf]]]]].
  cbv zeta in *. cbn [Signup.posted app] in Hp. now rewrite Hp.
Qed.
